(** * The JavaScript regex engine of shiki: scanner construction and scanning

    A shallow embedding of [packages/engine-javascript/src/index.ts]:
    the class [JavaScriptScanner] (its constructor and [findNextMatchSync])
    and the factory [createJavaScriptRegexEngine].

    JavaScript objects that are shared by reference (compiled [RegExp]
    objects, which sit in the cache and in every scanner that uses them)
    live in an explicit heap of objects addressed by location; the cache
    ([Map<string, RegExp | Error>]) is a finite map from pattern strings to
    locations or errors.  Numbers are modelled by [Z] (the development
    only ranges over integral positions), abrupt completion ([throw]) by
    the type [Completion]. *)

From Stdlib Require Import ZArith String Ascii List Lia.
From stdpp Require Import base option list gmap strings.
From stdpp Require Import sorting pretty.

Local Open Scope Z_scope.

(** ** The JavaScript values the module works on *)

(** A thrown value.  The source only ever rethrows what it caught, so the
    errors are kept abstract up to their message. *)
Record Error := mkError { message : string }.

(** Completion of a JavaScript computation: a normal value or a [throw]. *)
Inductive Completion (A : Type) : Type :=
| Normal (a : A)
| Throw (e : Error).
Arguments Normal {A} a.
Arguments Throw {A} e.

(** A capture group position, [indices[k]] of a match: [None] is the
    [undefined] of a group that did not participate. *)
Definition Indice : Type := option (Z * Z).

(** The part of a [RegExpExecArray] the scanner reads: [match.index] and
    [match.indices] (present only when the expression has the [d] flag). *)
Record RegExpExecArray := mkMatch {
  m_index : Z;
  m_indices : option (list Indice)
}.

(** The state of a successful match attempt at one position, as the
    pattern matcher of ECMA-262 returns it: the end of the match and the
    capture groups 1, 2, ... *)
Record MatchState := mkMatchState {
  endIndex : Z;
  captures : list Indice
}.

(** A compiled [RegExp] object.  [re_matcher str i] tries the pattern at
    position [i] of [str] only; searching forward is done by [exec]. The
    only mutable field is [lastIndex]. *)
Record RegExp := mkRegExp {
  re_source : string;
  re_global : bool;
  re_sticky : bool;
  re_hasIndices : bool;
  re_matcher : string -> Z -> Completion (option MatchState);
  lastIndex : Z
}.

Definition set_lastIndex (v : Z) (r : RegExp) : RegExp :=
  {| re_source := re_source r;
     re_global := re_global r;
     re_sticky := re_sticky r;
     re_hasIndices := re_hasIndices r;
     re_matcher := re_matcher r;
     lastIndex := v |}.

(** ** [RegExp.prototype.exec] *)

Definition str_length (s : string) : Z := Z.of_nat (String.length s).

(** [ToLength] on an integral number. *)
Definition ToLength (v : Z) : Z := Z.min (Z.max v 0) (2 ^ 53 - 1).

(** The outcome of the search loop of [exec]. *)
Inductive SearchOutcome :=
| Found (start : Z) (st : MatchState)
| NotFound
| Raised (e : Error).

(** The loop of RegExpBuiltinExec: try position [i], then [i + 1], ...
    while [i <= length str].  [n] is the number of positions left, so that
    [n = 0] is the exit test [lastIndex > length]. A sticky expression
    gives up after the first position. *)
Fixpoint search (matcher : string -> Z -> Completion (option MatchState))
    (sticky : bool) (str : string) (n : nat) (i : Z) : SearchOutcome :=
  match n with
  | O => NotFound
  | S n' =>
      match matcher str i with
      | Throw e => Raised e
      | Normal (Some st) => Found i st
      | Normal None =>
          if sticky then NotFound else search matcher sticky str n' (i + 1)
      end
  end.

(** [R.exec(str)]: returns the object [R] after the call and the
    completion of the call. *)
Definition exec (R : RegExp) (str : string) : RegExp * Completion (option RegExpExecArray) :=
  let len := str_length str in
  let tracked := re_global R || re_sticky R in
  let start := if tracked then ToLength (lastIndex R) else 0 in
  match search (re_matcher R) (re_sticky R) str (Z.to_nat (len + 1 - start)) start with
  | Raised e => (R, Throw e)
  | NotFound =>
      ((if tracked then set_lastIndex 0 R else R), Normal None)
  | Found i st =>
      ((if tracked then set_lastIndex (endIndex st) R else R),
       Normal (Some {| m_index := i;
                       m_indices := if re_hasIndices R
                                    then Some (Some (i, endIndex st) :: captures st)
                                    else None |}))
  end.

(** [str.slice(start)] for an integral [start]. *)
Definition slice (s : string) (start : Z) : string :=
  let len := str_length s in
  let from := if start <? 0 then Z.max (len + start) 0 else Z.min start len in
  substring (Z.to_nat from) (Z.to_nat (len - from)) s.

(** [p.startsWith(q)] *)
Definition startsWith (p q : string) : bool := String.prefix q p.

(** ** The heap of compiled expressions and the cache *)

Abbreviation loc := nat.

(** Compiled [RegExp] objects, addressed by their position. *)
Abbreviation Heap := (list RegExp).

(** A slot of the cache, [RegExp | Error]. Both kinds of value are truthy
    in JavaScript, which is what the test [if (cached)] relies on; what
    [regexConstructor] throws is an [Error], as the cast [e as Error] of
    the source has it. *)
Inductive CacheEntry :=
| CachedRegExp (l : loc)
| CachedError (e : Error).

Abbreviation Cache := (gmap string CacheEntry).

(** What the constructor reads and writes: the heap, the cache it was
    given (a [Map], as the signature of the constructor and the engine
    have it, so that [cache?.get] and [cache?.set] are plain accesses),
    and, for the statements about recompilation, the trace of the
    patterns [regexConstructor] was called on, latest first. *)
Record Store := mkStore {
  heap : Heap;
  cache : Cache;
  compiled : list string
}.

(** ** [class JavaScriptScanner] *)

(** The fields [cache] and [regexConstructor] of the class are references
    to the arguments of the constructor; the first is the [cache] of the
    store, the second is not used after construction. *)
Record JavaScriptScanner := mkScanner {
  patterns : list string;
  forgiving : bool;
  regexps : list (option loc);
  contiguousAnchorSimulation : list bool
}.

Definition isContiguousAnchor (p : string) : bool :=
  startsWith p "(^|\G)" || startsWith p "(\G|^)".

(** The callback of [patterns.map] in the constructor, for the pattern
    [p] at index [idx]. *)
Definition compilePattern (regexConstructor : string -> Completion RegExp)
    (forgiving : bool) (p : string) (idx : nat)
    (st : Store) (anchors : list bool)
  : Store * list bool * Completion (option loc) :=
  let anchors' := if isContiguousAnchor p then <[idx := true]> anchors else anchors in
  match cache st !! p with
  | Some (CachedRegExp l) => (st, anchors', Normal (Some l))
  | Some (CachedError e) =>
      (st, anchors', if forgiving then Normal None else Throw e)
  | None =>
      match regexConstructor p with
      | Normal regex =>
          let l := length (heap st) in
          ({| heap := heap st ++ [regex];
              cache := <[p := CachedRegExp l]> (cache st);
              compiled := p :: compiled st |},
           anchors', Normal (Some l))
      | Throw e =>
          ({| heap := heap st;
              cache := <[p := CachedError e]> (cache st);
              compiled := p :: compiled st |},
           anchors', if forgiving then Normal None else Throw e)
      end
  end.

(** [patterns.map(...)]: the callback on each pattern in order; a [throw]
    in the callback ends the traversal. *)
Fixpoint mapPatterns (regexConstructor : string -> Completion RegExp)
    (forgiving : bool) (ps : list string) (idx : nat)
    (st : Store) (anchors : list bool)
  : Store * list bool * Completion (list (option loc)) :=
  match ps with
  | [] => (st, anchors, Normal [])
  | p :: ps' =>
      match compilePattern regexConstructor forgiving p idx st anchors with
      | (st1, anchors1, Throw e) => (st1, anchors1, Throw e)
      | (st1, anchors1, Normal r) =>
          match mapPatterns regexConstructor forgiving ps' (S idx) st1 anchors1 with
          | (st2, anchors2, Throw e) => (st2, anchors2, Throw e)
          | (st2, anchors2, Normal rs) => (st2, anchors2, Normal (r :: rs))
          end
      end
  end.

(** [new JavaScriptScanner(patterns, cache, forgiving, regexConstructor)],
    the cache being the one of the store. *)
Definition newJavaScriptScanner (ps : list string) (forgiving : bool)
    (regexConstructor : string -> Completion RegExp) (st : Store)
  : Store * Completion JavaScriptScanner :=
  let anchors0 := replicate (length ps) false in
  match mapPatterns regexConstructor forgiving ps 0 st anchors0 with
  | (st', _, Throw e) => (st', Throw e)
  | (st', anchors, Normal rs) =>
      (st', Normal {| patterns := ps;
                      forgiving := forgiving;
                      regexps := rs;
                      contiguousAnchorSimulation := anchors |})
  end.

(** ** [findNextMatchSync] *)

Definition MAX : Z := 4294967295.

Record CaptureIndex := mkCapture {
  c_start : Z;
  c_length : Z;
  c_end : Z
}.

Record IOnigMatch := mkResult {
  index : nat;
  captureIndices : list CaptureIndex
}.

(** The buffer wrapper of the engine. *)
Record RegexEngineString := mkString { content : string }.

Definition toCapture (offset : Z) (indice : Indice) : CaptureIndex :=
  match indice with
  | None => {| c_end := MAX; c_start := MAX; c_length := 0 |}
  | Some (s, e) =>
      {| c_start := s + offset; c_length := e - s; c_end := e + offset |}
  end.

(** Reading [match.indices] of an expression without the [d] flag gives
    [undefined], and calling [.map] on it throws this error. *)
Definition indicesTypeError : Error :=
  mkError "Cannot read properties of undefined (reading 'map')".

Definition toResult (i : nat) (m : RegExpExecArray) (offset : Z) : Completion IOnigMatch :=
  match m_indices m with
  | None => Throw indicesTypeError
  | Some indices =>
      Normal {| index := i; captureIndices := map (toCapture offset) indices |}
  end.

(** An element of [pending]: [[index, match, offset]]. *)
Definition PendingEntry : Type := nat * RegExpExecArray * Z.

(** How the [try] block of one iteration ends when it does not throw. *)
Inductive TryOutcome :=
| TryContinue
| TryReturn (r : IOnigMatch)
| TryPush (entry : PendingEntry).

(** The two calls of [exec] of the [try] block: the search from
    [startPosition], and for an anchor-flagged pattern that found nothing
    the search in the rest of the string. Gives the object after the
    calls, and the match with its [offset]. *)
Definition execWithAnchor (anchor : bool) (str : string) (startPosition : Z)
    (R : RegExp) : RegExp * Completion (option (RegExpExecArray * Z)) :=
  match exec (set_lastIndex startPosition R) str with
  | (R1, Throw e) => (R1, Throw e)
  | (R1, Normal (Some m)) => (R1, Normal (Some (m, 0)))
  | (R1, Normal None) =>
      if anchor then
        match exec (set_lastIndex 0 R1) (slice str startPosition) with
        | (R2, Throw e) => (R2, Throw e)
        | (R2, Normal (Some m)) => (R2, Normal (Some (m, startPosition)))
        | (R2, Normal None) => (R2, Normal None)
        end
      else (R1, Normal None)
  end.

(** The [try] block of iteration [i] on the object [R = this.regexps[i]]. *)
Definition tryBlock (anchor : bool) (i : nat) (str : string) (startPosition : Z)
    (R : RegExp) : RegExp * Completion TryOutcome :=
  match execWithAnchor anchor str startPosition R with
  | (R', Throw e) => (R', Throw e)
  | (R', Normal None) => (R', Normal TryContinue)
  | (R', Normal (Some (m, offset))) =>
      if m_index m =? startPosition then
        match toResult i m offset with
        | Normal r => (R', Normal (TryReturn r))
        | Throw e => (R', Throw e)
        end
      else (R', Normal (TryPush (i, m, offset)))
  end.

(** How the [for] loop over the patterns ends. *)
Inductive LoopOutcome :=
| Returned (r : IOnigMatch)
| Completed (pending : list PendingEntry).

(** The [for] loop, from index [i] on; [rest] is [this.regexps] from [i].
    A location that is not allocated is passed over like [null]: no
    scanner built by the constructor holds one (see
    [newJavaScriptScanner_allocated]). *)
Fixpoint forLoop (this : JavaScriptScanner) (str : string) (startPosition : Z)
    (rest : list (option loc)) (i : nat) (h : Heap) (pending : list PendingEntry)
  : Heap * Completion LoopOutcome :=
  match rest with
  | [] => (h, Normal (Completed pending))
  | None :: rest' => forLoop this str startPosition rest' (S i) h pending
  | Some l :: rest' =>
      match h !! l with
      | None => forLoop this str startPosition rest' (S i) h pending
      | Some R =>
          let anchor := default false (contiguousAnchorSimulation this !! i) in
          let '(R', c) := tryBlock anchor i str startPosition R in
          let h' := <[l := R']> h in
          match c with
          | Normal TryContinue => forLoop this str startPosition rest' (S i) h' pending
          | Normal (TryReturn r) => (h', Normal (Returned r))
          | Normal (TryPush entry) =>
              forLoop this str startPosition rest' (S i) h' (pending ++ [entry])
          | Throw e =>
              if forgiving this
              then forLoop this str startPosition rest' (S i) h' pending
              else (h', Throw e)
          end
      end
  end.

(** [Math.min(x, ...xs)] *)
Definition Math_min (x : Z) (xs : list Z) : Z := fold_left Z.min xs x.

(** [for (const [i, match, offset] of pending) if (match.index === minIndex) return ...];
    leaving the loop falls through to [return null]. *)
Fixpoint firstAtIndex (minIndex : Z) (pending : list PendingEntry)
  : Completion (option IOnigMatch) :=
  match pending with
  | [] => Normal None
  | (i, m, offset) :: pending' =>
      if m_index m =? minIndex then
        match toResult i m offset with
        | Normal r => Normal (Some r)
        | Throw e => Throw e
        end
      else firstAtIndex minIndex pending'
  end.

(** The code after the loop: the closest pending match, or [null]. *)
Definition closestPending (pending : list PendingEntry) : Completion (option IOnigMatch) :=
  match pending with
  | [] => Normal None
  | (_, m, _) :: pending' =>
      let minIndex := Math_min (m_index m) (map (fun e => m_index e.1.2) pending') in
      firstAtIndex minIndex pending
  end.

Definition findNextMatchSync (this : JavaScriptScanner)
    (string : string + RegexEngineString) (startPosition : Z) (h : Heap)
  : Heap * Completion (option IOnigMatch) :=
  let str := match string with inl s => s | inr rs => content rs end in
  match forLoop this str startPosition (regexps this) 0 h [] with
  | (h', Throw e) => (h', Throw e)
  | (h', Normal (Returned r)) => (h', Normal (Some r))
  | (h', Normal (Completed pending)) => (h', closestPending pending)
  end.

(** ** [createJavaScriptRegexEngine] *)

Record JavaScriptRegexEngineOptions := mkOptions {
  opt_forgiving : option bool;
  opt_cache : option Cache;
  opt_regexConstructor : option (string -> Completion RegExp)
}.

Section Engine.
(** [defaultJavaScriptRegexConstructor], that is [onigurumaToRegexp]
    with the flags [dgm], a function of another package. *)
Variable defaultJavaScriptRegexConstructor : string -> Completion RegExp.

(** The engine: the values its two methods close over. *)
Record RegexEngine := mkEngine {
  eng_forgiving : bool;
  eng_regexConstructor : string -> Completion RegExp
}.

(** The engine and the cache it starts with. *)
Definition createJavaScriptRegexEngine (options : JavaScriptRegexEngineOptions)
  : RegexEngine * Cache :=
  ({| eng_forgiving := default false (opt_forgiving options);
      eng_regexConstructor :=
        default defaultJavaScriptRegexConstructor (opt_regexConstructor options) |},
   default ∅ (opt_cache options)).

Definition createScanner (e : RegexEngine) (ps : list string) (st : Store)
  : Store * Completion JavaScriptScanner :=
  newJavaScriptScanner ps (eng_forgiving e) (eng_regexConstructor e) st.

Definition createString (s : string) : RegexEngineString := {| content := s |}.
End Engine.

(** ** Notions used in the statements *)

(** [R'] is the object [R] up to the value of [lastIndex]. *)
Definition sameMatcher (R R' : RegExp) : Prop :=
  R' = set_lastIndex (lastIndex R') R.

(** Two heaps with the same objects up to [lastIndex]. *)
Definition sameMatchers (h h' : Heap) : Prop := Forall2 sameMatcher h h'.

(** The text the scanner reads. *)
Definition textOf (buffer : string + RegexEngineString) : string :=
  match buffer with inl s => s | inr rs => content rs end.

(** [(i, m, offset)] is what the two searches of iteration [i] give on
    the heap [h]: pattern [i] has a compiled expression, and its search
    (direct, or in the rest of the string for an anchor-flagged pattern)
    finds [m]. *)
Definition candidate (this : JavaScriptScanner) (str : string) (sp : Z)
    (h : Heap) (entry : PendingEntry) : Prop :=
  exists l R,
    regexps this !! entry.1.1 = Some (Some l) /\
    h !! l = Some R /\
    (execWithAnchor (default false (contiguousAnchorSimulation this !! entry.1.1))
       str sp R).2 = Normal (Some (entry.1.2, entry.2)).

(** What iteration [i] of the loop does, read off the heap the scan
    starts with: [None] when [this.regexps[i]] is [null]. *)
Definition iteration (this : JavaScriptScanner) (str : string) (sp : Z)
    (h : Heap) (i : nat) : option (Completion TryOutcome) :=
  match regexps this !! i with
  | Some (Some l) =>
      match h !! l with
      | Some R =>
          Some (tryBlock (default false (contiguousAnchorSimulation this !! i))
                  i str sp R).2
      | None => None
      end
  | _ => None
  end.

(** The iteration leaves the loop running: it neither returns nor, in
    non-forgiving mode, throws. *)
Definition passes (forgiving : bool) (o : option (Completion TryOutcome)) : Prop :=
  match o with
  | Some (Normal (TryReturn _)) => False
  | Some (Throw _) => forgiving = true
  | _ => True
  end.

(** What the iteration adds to [pending]. *)
Definition pushed (o : option (Completion TryOutcome)) : list PendingEntry :=
  match o with
  | Some (Normal (TryPush entry)) => [entry]
  | _ => []
  end.

(** How [toResult] reports the capture group [indice] as [c], under the
    correction [offset]. *)
Definition reported (offset : Z) (indice : Indice) (c : CaptureIndex) : Prop :=
  match indice with
  | None => c = {| c_start := MAX; c_length := 0; c_end := MAX |}
  | Some (s, e) =>
      c_start c = s + offset /\ c_end c = e + offset /\
      c_length c = e - s /\ c_length c = c_end c - c_start c
  end.

(** The match [m], found in [str.slice(offset)], seen as a match in [str]. *)
Definition shiftIndice (offset : Z) (indice : Indice) : Indice :=
  match indice with
  | None => None
  | Some (s, e) => Some (s + offset, e + offset)
  end.

Definition shiftMatch (offset : Z) (m : RegExpExecArray) : RegExpExecArray :=
  {| m_index := m_index m + offset;
     m_indices := map (shiftIndice offset) <$> m_indices m |}.

(** What a slot of the cache puts into [this.regexps] (in forgiving mode
    for a recorded failure). *)
Definition slotOf (entry : CacheEntry) : option loc :=
  match entry with
  | CachedRegExp l => Some l
  | CachedError _ => None
  end.

(** The pattern [p] fails to compile with [e], seen from the cache [c]:
    either the failure [e] is recorded in [c], or [p] has no slot and
    [regexConstructor] throws [e] on it. *)
Definition failsToCompile (regexConstructor : string -> Completion RegExp)
    (c : Cache) (p : string) (e : Error) : Prop :=
  c !! p = Some (CachedError e) \/
  (c !! p = None /\ regexConstructor p = Throw e).

(** Every expression of the cache is on the heap. *)
Definition storeAllocated (st : Store) : Prop :=
  forall q l, cache st !! q = Some (CachedRegExp l) -> (l < length (heap st))%nat.

(** The code of [findNextMatchSync] after the loop. *)
Definition afterLoop (out : Heap * Completion LoopOutcome)
  : Heap * Completion (option IOnigMatch) :=
  match out with
  | (h', Throw e) => (h', Throw e)
  | (h', Normal (Returned r)) => (h', Normal (Some r))
  | (h', Normal (Completed pending)) => (h', closestPending pending)
  end.

(** ** Concrete expressions for the examples

    Matchers of a few JavaScript expressions, each as the function that
    tries the pattern at one position. *)

Definition charAt (s : string) (i : Z) : option ascii :=
  if i <? 0 then None else String.get (Z.to_nat i) s.

Definition isChar (c : ascii) (s : string) (i : Z) : bool :=
  match charAt s i with
  | Some c' => if Ascii.eqb c c' then true else false
  | None => false
  end.

Definition LF : ascii := ascii_of_nat 10.

(** [^] with the [m] flag holds at [j]. *)
Definition lineStart (s : string) (j : Z) : bool :=
  (j =? 0) || isChar LF s (j - 1).

(** The [k] characters before [i] exist and none is a line feed: [.{k}]
    ends at [i]. *)
Fixpoint dotsBefore (s : string) (k : nat) (i : Z) : bool :=
  match k with
  | O => true
  | S k' =>
      match charAt s (i - 1) with
      | Some c => negb (Ascii.eqb c LF) && dotsBefore s k' (i - 1)
      | None => false
      end
  end.

(** The matcher of [/c/] for a character [c]. *)
Definition literalChar (c : ascii) (s : string) (i : Z) : Completion (option MatchState) :=
  Normal (if isChar c s i then Some {| endIndex := i + 1; captures := [] |} else None).

(** The matcher of [/(?<=^.{k})c/m]: the character [c] in column [k] of a
    line. For [k = 0] this is [/^c/m]. *)
Definition charAtColumn (k : nat) (c : ascii) (s : string) (i : Z)
  : Completion (option MatchState) :=
  Normal (if isChar c s i && dotsBefore s k i && lineStart s (i - Z.of_nat k)
          then Some {| endIndex := i + 1; captures := [] |} else None).

(** The matcher of [/(a)|(b)/]: two groups of which one takes part. *)
Definition eitherChar (a b : ascii) (s : string) (i : Z) : Completion (option MatchState) :=
  Normal (if isChar a s i then Some {| endIndex := i + 1; captures := [Some (i, i + 1); None] |}
          else if isChar b s i then Some {| endIndex := i + 1; captures := [None; Some (i, i + 1)] |}
          else None).

(** [\w] *)
Definition isWordChar (c : ascii) : bool :=
  let n := nat_of_ascii c in
  (((48 <=? n) && (n <=? 57)) || ((65 <=? n) && (n <=? 90)) || (n =? 95)
   || ((97 <=? n) && (n <=? 122)))%nat.

(** [\b] holds at [i], a word character being at [i]. *)
Definition wordStart (s : string) (i : Z) : bool :=
  match charAt s (i - 1) with
  | Some c => negb (isWordChar c)
  | None => true
  end.

(** The matcher of [/\bc/] for a letter [c]. *)
Definition charAtWordStart (c : ascii) (s : string) (i : Z) : Completion (option MatchState) :=
  Normal (if isChar c s i && wordStart s i
          then Some {| endIndex := i + 1; captures := [] |} else None).

(** The matcher of [/\b(?:(a)|(b))/] for letters [a] and [b]. *)
Definition eitherCharAtWordStart (a b : ascii) (s : string) (i : Z)
  : Completion (option MatchState) :=
  if wordStart s i then eitherChar a b s i else Normal None.

(** The [exec] of an object that extends [RegExp]: it throws on a buffer
    that starts with [!] and is that of [/c/] on the others. *)
Definition pickyChar (c : ascii) (s : string) (i : Z) : Completion (option MatchState) :=
  if isChar "!" s 0 then Throw (mkError "unsupported input") else literalChar c s i.

Definition isLetter (c : ascii) : bool :=
  let n := nat_of_ascii c in ((97 <=? n) && (n <=? 122))%nat.

(** [new RegExp(source, 'dgm')] with the given matcher. *)
Definition dgm (source : string) (matcher : string -> Z -> Completion (option MatchState)) : RegExp :=
  {| re_source := source; re_global := true; re_sticky := false;
     re_hasIndices := true; re_matcher := matcher; lastIndex := 0 |}.

(** A [regexConstructor] for the examples, in JavaScript
    [p => new RegExp(p.replace('(^|\\G)', ''), 'dgm')] on the patterns
    below: the contiguous anchor alternation is dropped and the rest is
    compiled as it is. Every other pattern is a syntax error. *)
Definition exampleConstructor (p : string) : Completion RegExp :=
  match p with
  | String c EmptyString =>
      if isLetter c then Normal (dgm p (literalChar c))
      else Throw (mkError ("Invalid regular expression: " +:+ p))
  | "(^|\G)b" => Normal (dgm "b" (literalChar "b"))
  | "(^|\G)\bb" => Normal (dgm "\bb" (charAtWordStart "b"))
  | "(^|\G)(?<=^..)b" => Normal (dgm "(?<=^..)b" (charAtColumn 2 "b"))
  | "(a)|(b)" => Normal (dgm p (eitherChar "a" "b"))
  | "(^|\G)\b(?:(a)|(b))" =>
      Normal (dgm "\b(?:(a)|(b))" (eitherCharAtWordStart "a" "b"))
  | _ => Throw (mkError ("Invalid regular expression: " +:+ p))
  end.

(** A [regexConstructor] that gives, for a one-letter pattern, an object
    whose [exec] can throw. *)
Definition pickyConstructor (p : string) : Completion RegExp :=
  match p with
  | String c EmptyString =>
      if isLetter c then Normal (dgm p (pickyChar c))
      else Throw (mkError ("Invalid regular expression: " +:+ p))
  | _ => Throw (mkError ("Invalid regular expression: " +:+ p))
  end.

Definition emptyStore : Store := {| heap := []; cache := ∅; compiled := [] |}.

(** The scanner over [ps] built from an empty store, and the heap it
    leaves; [None] when the construction throws. *)
Definition scannerWith (regexConstructor : string -> Completion RegExp)
    (forgiving : bool) (ps : list string) : option (JavaScriptScanner * Heap) :=
  match newJavaScriptScanner ps forgiving regexConstructor emptyStore with
  | (st, Normal sc) => Some (sc, heap st)
  | (_, Throw _) => None
  end.

Definition exampleScanner : bool -> list string -> option (JavaScriptScanner * Heap) :=
  scannerWith exampleConstructor.

(** Scanning [str] from [startPosition] with a fresh scanner over [ps]. *)
Definition exampleScan (forgiving : bool) (ps : list string) (str : string)
    (startPosition : Z) : option (Completion (option IOnigMatch)) :=
  match exampleScanner forgiving ps with
  | Some (sc, h) => Some (snd (findNextMatchSync sc (inl str) startPosition h))
  | None => None
  end.

(** ** The scanners of the examples *)

(** Patterns [x] and [(^|\G)(?<=^..)b]. *)
Definition closestScanner : JavaScriptScanner :=
  {| patterns := ["x"; "(^|\G)(?<=^..)b"]; forgiving := false;
     regexps := [Some 0%nat; Some 1%nat];
     contiguousAnchorSimulation := [false; true] |}.

Definition closestHeap : Heap :=
  [dgm "x" (literalChar "x"); dgm "(?<=^..)b" (charAtColumn 2 "b")].

(** Patterns [(^|\G)\bb] and [b]. *)
Definition precedenceScanner : JavaScriptScanner :=
  {| patterns := ["(^|\G)\bb"; "b"]; forgiving := false;
     regexps := [Some 0%nat; Some 1%nat];
     contiguousAnchorSimulation := [true; false] |}.

Definition precedenceHeap : Heap :=
  [dgm "\bb" (charAtWordStart "b"); dgm "b" (literalChar "b")].

(** Pattern [(^|\G)\b(?:(a)|(b))]. *)
Definition anchorScanner : JavaScriptScanner :=
  {| patterns := ["(^|\G)\b(?:(a)|(b))"]; forgiving := false;
     regexps := [Some 0%nat];
     contiguousAnchorSimulation := [true] |}.

Definition anchorHeap : Heap :=
  [dgm "\b(?:(a)|(b))" (eitherCharAtWordStart "a" "b")].

(** Pattern [b]. *)
Definition plainScanner : JavaScriptScanner :=
  {| patterns := ["b"]; forgiving := false;
     regexps := [Some 0%nat];
     contiguousAnchorSimulation := [false] |}.

Definition plainHeap : Heap := [dgm "b" (literalChar "b")].

(** Pattern [(a)|(b)]. *)
Definition groupsScanner : JavaScriptScanner :=
  {| patterns := ["(a)|(b)"]; forgiving := false;
     regexps := [Some 0%nat];
     contiguousAnchorSimulation := [false] |}.

Definition groupsHeap : Heap := [dgm "(a)|(b)" (eitherChar "a" "b")].

(** Pattern [b] compiled by [pickyConstructor], in forgiving and in
    non-forgiving mode. *)
Definition pickyScanner (forgiving : bool) : JavaScriptScanner :=
  {| patterns := ["b"]; forgiving := forgiving;
     regexps := [Some 0%nat];
     contiguousAnchorSimulation := [false] |}.

Definition pickyHeap : Heap := [dgm "b" (pickyChar "b")].

(** The store after a first scanner over [b] was built. *)
Definition storeWithB : Store :=
  (newJavaScriptScanner ["b"] false exampleConstructor emptyStore).1.

(** Four patterns of which the second and the third start with a
    contiguous anchor alternation; the example constructor rejects the
    last two. *)
Definition flagsPatterns : list string :=
  ["a"; "(^|\G)b"; "(\G|^)b"; " (^|\G)b"].

Definition flagsScanner : JavaScriptScanner :=
  {| patterns := flagsPatterns; forgiving := true;
     regexps := [Some 0%nat; Some 1%nat; None; None];
     contiguousAnchorSimulation := [false; true; true; false] |}.

(** [new RegExp('b', 'd')] and [new RegExp('b', 'g')]: an expression
    without the [g] flag, and one without the [d] flag. *)
Definition withoutGlobal : RegExp :=
  {| re_source := "b"; re_global := false; re_sticky := false;
     re_hasIndices := true; re_matcher := literalChar "b"; lastIndex := 0 |}.

Definition withoutIndices : RegExp :=
  {| re_source := "b"; re_global := true; re_sticky := false;
     re_hasIndices := false; re_matcher := literalChar "b"; lastIndex := 0 |}.

(** ** Notions used in the further properties *)

(** What the searches of iteration [j] give, read off the heap the scan
    starts with: [None] when [this.regexps[j]] is [null]. *)
Definition searchAt (this : JavaScriptScanner) (str : string) (sp : Z)
    (h : Heap) (j : nat) : option (Completion (option (RegExpExecArray * Z))) :=
  match regexps this !! j with
  | Some (Some l) =>
      match h !! l with
      | Some R =>
          Some (execWithAnchor (default false (contiguousAnchorSimulation this !! j))
                  str sp R).2
      | None => None
      end
  | _ => None
  end.

(** The cache agrees with [regexConstructor]: a compiled slot of [q]
    holds, up to [lastIndex], the object [regexConstructor] gives for
    [q], and a recorded failure is what it throws on [q]. *)
Definition cacheFaithful (regexConstructor : string -> Completion RegExp)
    (st : Store) : Prop :=
  forall q entry,
    cache st !! q = Some entry ->
    match entry with
    | CachedRegExp l =>
        exists R0 R, regexConstructor q = Normal R0 /\
                     heap st !! l = Some R /\ sameMatcher R0 R
    | CachedError e => regexConstructor q = Throw e
    end.

(** * The meta highlight transformer

    The second part of the source file: [parseMetaHighlightString] and
    [transformerMetaHighlight]. A JavaScript number is here [NaN] or an
    integer; the integers are exact up to [2^53 - 1], and the statements
    that depend on the value of a numeral keep to that range. *)

Inductive Number :=
| NaN
| Finite (z : Z).

Definition numAdd (a b : Number) : Number :=
  match a, b with
  | Finite x, Finite y => Finite (x + y)
  | _, _ => NaN
  end.

Definition numSub (a b : Number) : Number :=
  match a, b with
  | Finite x, Finite y => Finite (x - y)
  | _, _ => NaN
  end.

(** [SameValueZero], the comparison of [Array.prototype.includes]. *)
Definition sameValueZero (a b : Number) : bool :=
  match a, b with
  | NaN, NaN => true
  | Finite x, Finite y => x =? y
  | _, _ => false
  end.

Definition includes (xs : list Number) (x : Number) : bool :=
  existsb (sameValueZero x) xs.

(** ** [Number.parseInt(v, 10)] *)

Definition isDigit (c : ascii) : bool :=
  let n := nat_of_ascii c in ((48 <=? n) && (n <=? 57))%nat.

Definition digitValue (c : ascii) : Z := Z.of_nat (nat_of_ascii c) - 48.

(** The white space that [parseInt] skips, among the characters below
    128. *)
Definition isWhiteSpace (c : ascii) : bool :=
  let n := nat_of_ascii c in (((9 <=? n) && (n <=? 13)) || (n =? 32))%nat.

Fixpoint trimStart (s : string) : string :=
  match s with
  | String c rest => if isWhiteSpace c then trimStart rest else s
  | EmptyString => s
  end.

(** The value of the decimal digits [s] starts with, after the digits
    of value [acc]. *)
Fixpoint digitsValue (acc : Z) (s : string) : Z :=
  match s with
  | String c rest =>
      if isDigit c then digitsValue (acc * 10 + digitValue c) rest else acc
  | EmptyString => acc
  end.

(** The value is computed in [Z]: it is the value [Number.parseInt]
    gives for numerals up to [2^53 - 1], which a double holds exactly. *)
Definition parseInt10 (v : string) : Number :=
  let s := trimStart v in
  let '(sign, body) :=
    match s with
    | String "-" rest => (-1, rest)
    | String "+" rest => (1, rest)
    | _ => (1, s)
    end in
  match body with
  | String c _ => if isDigit c then Finite (sign * digitsValue 0 body) else NaN
  | EmptyString => NaN
  end.

(** ** [String.prototype.split] with a one-character separator *)

(** The piece up to the first separator, and the pieces after it. *)
Fixpoint splitPieces (sep : ascii) (s : string) : string * list string :=
  match s with
  | EmptyString => (EmptyString, [])
  | String c rest =>
      let '(piece, pieces) := splitPieces sep rest in
      if Ascii.eqb c sep then (EmptyString, piece :: pieces)
      else (String c piece, pieces)
  end.

Definition split (sep : ascii) (s : string) : list string :=
  let '(piece, pieces) := splitPieces sep s in piece :: pieces.

(** ** [Array.from({ length }, (_, i) => f(i))] *)

Definition invalidArrayLength : Error := mkError "Invalid array length".

Definition toLengthNumber (n : Number) : Z :=
  match n with
  | NaN => 0
  | Finite z => ToLength z
  end.

Definition Array_from_length {A} (n : Number) (f : Z -> A) : Completion (list A) :=
  let len := toLengthNumber n in
  if 2 ^ 32 - 1 <? len then Throw invalidArrayLength
  else Normal (map (fun i => f (Z.of_nat i)) (seq 0 (Z.to_nat len))).

(** [xs.flatMap(f)] for a callback that can throw. *)
Fixpoint flatMapC {A B} (f : A -> Completion (list B)) (xs : list A)
  : Completion (list B) :=
  match xs with
  | [] => Normal []
  | x :: rest =>
      match f x with
      | Throw e => Throw e
      | Normal ys =>
          match flatMapC f rest with
          | Throw e => Throw e
          | Normal zs => Normal (ys ++ zs)
          end
      end
  end.

(** ** [meta.match(/\{([\d,-]+)\}/)] *)

(** [[\d,-]] *)
Definition isClassChar (c : ascii) : bool :=
  isDigit c || Ascii.eqb c "," || Ascii.eqb c "-".

(** The longest run of class characters [s] starts with, and the rest. *)
Fixpoint classRun (s : string) : string * string :=
  match s with
  | String c rest =>
      if isClassChar c
      then let '(run, after) := classRun rest in (String c run, after)
      else (EmptyString, s)
  | EmptyString => (EmptyString, EmptyString)
  end.

(** Group 1 of the first match, or [None] for [null]. At an opening
    brace the expression matches when the run of class characters after
    it is not empty and a closing brace follows it: a shorter run is
    followed by a class character. Otherwise the search goes on with the
    next character. *)
Fixpoint matchBraces (s : string) : option string :=
  match s with
  | EmptyString => None
  | String c rest =>
      if Ascii.eqb c "{" then
        match classRun rest with
        | (String x run, String "}" _) => Some (String x run)
        | _ => matchBraces rest
        end
      else matchBraces rest
  end.

(** ** [parseMetaHighlightString] *)

(** The callback of [flatMap], on one item [v] of the group. *)
Definition expandItem (v : string) : Completion (list Number) :=
  match map parseInt10 (split "-" v) with
  | [n0] => Normal [n0]
  | n0 :: n1 :: _ =>
      Array_from_length (numAdd (numSub n1 n0) (Finite 1))
        (fun i => numAdd (Finite i) n0)
  | [] => Array_from_length NaN (fun i => numAdd (Finite i) NaN)
  end.

Definition parseMetaHighlightString (meta : string)
  : Completion (option (list Number)) :=
  match meta with
  | EmptyString => Normal None
  | _ =>
      match matchBraces meta with
      | None => Normal None
      | Some group =>
          match flatMapC expandItem (split "," group) with
          | Throw e => Throw e
          | Normal lines => Normal (Some lines)
          end
      end
  end.

(** ** [transformerMetaHighlight] *)

Record TransformerMetaHighlightOptions := mkHighlightOptions {
  opt_className : option string;
  opt_zeroIndexed : option bool
}.

(** What the [line] hook reads and writes of [this]:
    [this.options.meta?.__raw], and [this.meta[symbol]], where [None] is
    [undefined] or [null]. *)
Record LineContext := mkLineContext {
  meta_raw : option string;
  highlighted : option (list Number)
}.

Section Transformer.
(** The element of the line, and [this.addClassToHast], a method of the
    transformer context that changes the element in place. *)
Variable Element : Type.
Variable addClassToHast : Element -> string -> Element.

(** The hook [line(node, line)] of the transformer made with [options].
    It gives the context and the element after the call, and whether the
    call returned the element ([return node]) or nothing ([return]). *)
Definition lineHook (options : TransformerMetaHighlightOptions)
    (this : LineContext) (node : Element) (line : Number)
  : Completion (LineContext * Element * bool) :=
  let className := default "highlighted" (opt_className options) in
  let zeroIndexed := default false (opt_zeroIndexed options) in
  match meta_raw this with
  | None => Normal (this, node, false)
  | Some EmptyString => Normal (this, node, false)
  | Some raw =>
      match (match highlighted this with
             | Some lines => Normal (Some lines)
             | None => parseMetaHighlightString raw
             end) with
      | Throw e => Throw e
      | Normal stored =>
          let this' := {| meta_raw := meta_raw this; highlighted := stored |} in
          let lines := default [] stored in
          let lineIndex := if zeroIndexed then numSub line (Finite 1) else line in
          if includes lines lineIndex
          then Normal (this', addClassToHast node className, true)
          else Normal (this', node, true)
      end
  end.
End Transformer.

(** ** Notions used in the statements on the transformer *)

(** Every character of [s] satisfies [P]. *)
Fixpoint allChars (P : ascii -> bool) (s : string) : bool :=
  match s with
  | EmptyString => true
  | String c rest => P c && allChars P rest
  end.

(** [meta] has a brace group: an opening brace, one or more digits,
    commas and dashes, and a closing brace. *)
Definition hasBraceGroup (meta : string) : Prop :=
  exists pre group post,
    meta = pre +:+ "{" +:+ group +:+ "}" +:+ post /\
    group <> EmptyString /\
    allChars isClassChar group = true.

(** The numerals of a list of numbers, separated by commas. *)
Definition numerals (ns : list N) : string :=
  String.concat "," (map pretty ns).

(** An element with its classes, for the examples. *)
Definition exampleAddClass (node : list string) (className : string) : list string :=
  node ++ [className].

(** * Properties *)

(** ** Compiled expressions change in [lastIndex] only *)

Lemma sameMatcher_refl R : sameMatcher R R.
Proof. destruct R; reflexivity. Qed.

Lemma sameMatcher_set v R : sameMatcher R (set_lastIndex v R).
Proof. reflexivity. Qed.

Lemma sameMatcher_trans R1 R2 R3 :
  sameMatcher R1 R2 -> sameMatcher R2 R3 -> sameMatcher R1 R3.
Proof. unfold sameMatcher. intros H12 H23. rewrite H23, H12. reflexivity. Qed.

Lemma exec_sameMatcher R str : sameMatcher R (exec R str).1.
Proof.
  unfold exec.
  destruct (search _ _ _ _ _); simpl;
    destruct (re_global R || re_sticky R);
    auto using sameMatcher_refl, sameMatcher_set.
Qed.

(** After the assignment to [lastIndex], [exec] does not depend on what
    [lastIndex] was. *)
Lemma exec_after_assignment R R' v str :
  sameMatcher R R' -> exec (set_lastIndex v R') str = exec (set_lastIndex v R) str.
Proof. intros ->. reflexivity. Qed.

Lemma execWithAnchor_sameMatcher anchor str sp R :
  sameMatcher R (execWithAnchor anchor str sp R).1.
Proof.
  unfold execWithAnchor.
  pose proof (exec_sameMatcher (set_lastIndex sp R) str) as H1.
  destruct (exec (set_lastIndex sp R) str) as [R1 [[m|]|e]]; simpl in *;
    try (eapply sameMatcher_trans; [apply sameMatcher_set | exact H1]).
  destruct anchor; simpl.
  - pose proof (exec_sameMatcher (set_lastIndex 0 R1) (slice str sp)) as H2.
    destruct (exec (set_lastIndex 0 R1) (slice str sp)) as [R2 [[m|]|e]]; simpl in *;
      (eapply sameMatcher_trans; [apply sameMatcher_set | ];
       eapply sameMatcher_trans; [exact H1 | ];
       eapply sameMatcher_trans; [apply sameMatcher_set | exact H2]).
  - eapply sameMatcher_trans; [apply sameMatcher_set | exact H1].
Qed.

Lemma execWithAnchor_history anchor str sp R R' :
  sameMatcher R R' ->
  execWithAnchor anchor str sp R' = execWithAnchor anchor str sp R.
Proof. intros ->. reflexivity. Qed.

Lemma tryBlock_sameMatcher anchor i str sp R :
  sameMatcher R (tryBlock anchor i str sp R).1.
Proof.
  unfold tryBlock.
  pose proof (execWithAnchor_sameMatcher anchor str sp R) as H.
  destruct (execWithAnchor anchor str sp R) as [R' [[[m off]|]|e]]; simpl in *; auto.
  destruct (m_index m =? sp); auto.
  destruct (toResult i m off); auto.
Qed.

Lemma tryBlock_history anchor i str sp R R' :
  sameMatcher R R' ->
  tryBlock anchor i str sp R' = tryBlock anchor i str sp R.
Proof. intros ->. reflexivity. Qed.

Lemma sameMatchers_refl h : sameMatchers h h.
Proof. induction h; constructor; auto using sameMatcher_refl. Qed.

Lemma sameMatchers_trans h1 h2 h3 :
  sameMatchers h1 h2 -> sameMatchers h2 h3 -> sameMatchers h1 h3.
Proof.
  intros H12; revert h3.
  induction H12 as [|R1 R2 h1 h2 HR H12 IH]; intros h3 H23.
  - inversion H23. constructor.
  - inversion H23 as [|R2' R3 h2' h3' HR' H23']; subst.
    constructor; [eapply sameMatcher_trans; eassumption | apply IH; assumption].
Qed.

Lemma sameMatchers_lookup h h' l R :
  sameMatchers h h' -> h !! l = Some R ->
  exists R', h' !! l = Some R' /\ sameMatcher R R'.
Proof.
  intros H; revert l.
  induction H as [|R1 R2 h1 h2 HR H IH]; intros [|l] Hl; simpl in *; try discriminate.
  - injection Hl as <-. eauto.
  - eauto.
Qed.

Lemma sameMatchers_lookup_None h h' l :
  sameMatchers h h' -> h !! l = None -> h' !! l = None.
Proof.
  intros H; revert l.
  induction H as [|R1 R2 h1 h2 HR H IH]; intros [|l] Hl; simpl in *;
    try discriminate; auto.
Qed.

Lemma sameMatchers_insert h l R R' :
  h !! l = Some R -> sameMatcher R R' -> sameMatchers h (<[l := R']> h).
Proof.
  revert l. induction h as [|x h IH]; intros [|l] Hl HR; simpl in *; try discriminate.
  - injection Hl as ->. constructor; [exact HR | apply sameMatchers_refl].
  - constructor; [apply sameMatcher_refl | ]. apply IH; assumption.
Qed.

Lemma sameMatchers_lookup_r h h' l R' :
  sameMatchers h h' -> h' !! l = Some R' ->
  exists R, h !! l = Some R /\ sameMatcher R R'.
Proof.
  intros H; revert l.
  induction H as [|R1 R2 h1 h2 HR H IH]; intros [|l] Hl; simpl in *; try discriminate.
  - injection Hl as <-. eauto.
  - eauto.
Qed.

Lemma drop_cons_inv {A} (xs : list A) i x rest :
  drop i xs = x :: rest -> xs !! i = Some x /\ drop (S i) xs = rest.
Proof.
  revert i. induction xs as [|y xs IH]; intros [|i] H; simpl in *; try discriminate.
  - injection H as -> ->. split; [reflexivity | apply drop_0].
  - apply IH in H. exact H.
Qed.

(** The equations of the loop. *)
Lemma forLoop_nil this str sp i h pending :
  forLoop this str sp [] i h pending = (h, Normal (Completed pending)).
Proof. reflexivity. Qed.

Lemma forLoop_null this str sp rest i h pending :
  forLoop this str sp (None :: rest) i h pending
  = forLoop this str sp rest (S i) h pending.
Proof. reflexivity. Qed.

Lemma forLoop_regexp this str sp l rest i h pending :
  forLoop this str sp (Some l :: rest) i h pending
  = match h !! l with
    | None => forLoop this str sp rest (S i) h pending
    | Some R =>
        let anchor := default false (contiguousAnchorSimulation this !! i) in
        let '(R', c) := tryBlock anchor i str sp R in
        let h' := <[l := R']> h in
        match c with
        | Normal TryContinue => forLoop this str sp rest (S i) h' pending
        | Normal (TryReturn r) => (h', Normal (Returned r))
        | Normal (TryPush entry) => forLoop this str sp rest (S i) h' (pending ++ [entry])
        | Throw e =>
            if forgiving this
            then forLoop this str sp rest (S i) h' pending
            else (h', Throw e)
        end
    end.
Proof. reflexivity. Qed.

(** ** The frame of a scan *)

(** The loop writes to the objects of its own patterns only, and only to
    their [lastIndex]. *)
Lemma forLoop_frame this str sp rest :
  forall i h pending,
    sameMatchers h (forLoop this str sp rest i h pending).1 /\
    forall l, Some l ∉ rest ->
      (forLoop this str sp rest i h pending).1 !! l = h !! l.
Proof.
  induction rest as [|[l0|] rest IH]; intros i h pending.
  - rewrite forLoop_nil. split; [apply sameMatchers_refl | reflexivity].
  - rewrite forLoop_regexp.
    assert (Hrest : forall l, Some l ∉ Some l0 :: rest -> l <> l0 /\ Some l ∉ rest).
    { intros l Hl. split.
      - intros ->. apply Hl. left.
      - intros Hin. apply Hl. right. exact Hin. }
    destruct (h !! l0) as [R|] eqn:HR.
    + cbv zeta.
      pose proof (tryBlock_sameMatcher
                    (default false (contiguousAnchorSimulation this !! i)) i str sp R) as HS.
      destruct (tryBlock _ i str sp R) as [R' c]; simpl in HS.
      pose proof (sameMatchers_insert h l0 R R' HR HS) as Hins.
      assert (Hcont : forall pend,
                 sameMatchers h (forLoop this str sp rest (S i) (<[l0:=R']> h) pend).1 /\
                 forall l, Some l ∉ Some l0 :: rest ->
                   (forLoop this str sp rest (S i) (<[l0:=R']> h) pend).1 !! l = h !! l).
      { intros pend. destruct (IH (S i) (<[l0:=R']> h) pend) as [IH1 IH2]. split.
        - eapply sameMatchers_trans; eassumption.
        - intros l Hl. destruct (Hrest l Hl) as [Hne Hnin].
          rewrite IH2 by assumption. apply list_lookup_insert_ne. congruence. }
      assert (Hstop : forall l : loc, Some l ∉ Some l0 :: rest -> <[l0:=R']> h !! l = h !! l).
      { intros l Hl. destruct (Hrest l Hl) as [Hne _].
        apply list_lookup_insert_ne. congruence. }
      destruct c as [[|r|entry]|e]; auto.
      destruct (forgiving this); auto.
    + destruct (IH (S i) h pending) as [IH1 IH2]. split; [assumption|].
      intros l Hl. apply IH2. apply Hrest. exact Hl.
  - rewrite forLoop_null.
    destruct (IH (S i) h pending) as [IH1 IH2]. split; [assumption|].
    intros l Hl. apply IH2. intros Hin. apply Hl. right. exact Hin.
Qed.

(** ** A scan does not depend on earlier scans *)

Lemma forLoop_history this str sp rest :
  forall i h1 h2 pending,
    sameMatchers h1 h2 ->
    (forLoop this str sp rest i h2 pending).2 = (forLoop this str sp rest i h1 pending).2.
Proof.
  induction rest as [|[l0|] rest IH]; intros i h1 h2 pending Hsim.
  - reflexivity.
  - rewrite !forLoop_regexp.
    destruct (h1 !! l0) as [R1|] eqn:H1.
    + destruct (sameMatchers_lookup _ _ _ _ Hsim H1) as (R2 & H2 & HR).
      rewrite H2. cbv zeta. rewrite (tryBlock_history _ i str sp R1 R2 HR).
      pose proof (tryBlock_sameMatcher
                    (default false (contiguousAnchorSimulation this !! i)) i str sp R1) as HS.
      destruct (tryBlock _ i str sp R1) as [R' c]; simpl in HS.
      assert (Hsim' : sameMatchers (<[l0:=R']> h1) (<[l0:=R']> h2)).
      { apply Forall2_insert; [exact Hsim | apply sameMatcher_refl]. }
      destruct c as [[|r|entry]|e]; auto.
      destruct (forgiving this); auto.
    + rewrite (sameMatchers_lookup_None _ _ _ Hsim H1). auto.
  - rewrite !forLoop_null. auto.
Qed.

(** ** Where a result comes from *)

Lemma tryBlock_outcome anchor i str sp R R' out :
  tryBlock anchor i str sp R = (R', Normal out) ->
  match out with
  | TryContinue => (execWithAnchor anchor str sp R).2 = Normal None
  | TryReturn r =>
      exists m offset,
        (execWithAnchor anchor str sp R).2 = Normal (Some (m, offset)) /\
        m_index m = sp /\ toResult i m offset = Normal r
  | TryPush entry =>
      entry.1.1 = i /\
      (execWithAnchor anchor str sp R).2 = Normal (Some (entry.1.2, entry.2)) /\
      m_index entry.1.2 <> sp
  end.
Proof.
  unfold tryBlock.
  destruct (execWithAnchor anchor str sp R) as [R1 [[[m off]|]|e]]; simpl.
  - destruct (m_index m =? sp) eqn:Hsp.
    + apply Z.eqb_eq in Hsp.
      destruct (toResult i m off) as [r|e] eqn:Hr; intros [= <- <-].
      exists m, off. auto.
    + apply Z.eqb_neq in Hsp. intros [= <- <-]. simpl. auto.
  - intros [= <- <-]. reflexivity.
  - discriminate.
Qed.

Lemma forLoop_provenance this str sp h0 rest :
  forall i h pending h' out,
    drop i (regexps this) = rest ->
    sameMatchers h0 h ->
    Forall (candidate this str sp h0) pending ->
    forLoop this str sp rest i h pending = (h', Normal out) ->
    match out with
    | Returned r =>
        exists entry,
          candidate this str sp h0 entry /\ m_index entry.1.2 = sp /\
          toResult entry.1.1 entry.1.2 entry.2 = Normal r
    | Completed pending' => Forall (candidate this str sp h0) pending'
    end.
Proof.
  induction rest as [|[l0|] rest IH]; intros i h pending h' out Hdrop Hsim Hpend.
  - rewrite forLoop_nil. intros [= <- <-]. exact Hpend.
  - apply drop_cons_inv in Hdrop as [Hi Hdrop].
    rewrite forLoop_regexp.
    destruct (h !! l0) as [R|] eqn:HR; [|apply IH; assumption].
    cbv zeta.
    destruct (sameMatchers_lookup_r _ _ _ _ Hsim HR) as (R0 & HR0 & HRR).
    pose proof (tryBlock_sameMatcher
                  (default false (contiguousAnchorSimulation this !! i)) i str sp R) as HS.
    pose proof (tryBlock_outcome
                  (default false (contiguousAnchorSimulation this !! i)) i str sp R) as Hout.
    rewrite (execWithAnchor_history _ str sp R0 R HRR) in Hout.
    destruct (tryBlock _ i str sp R) as [R' c]; simpl in HS.
    assert (Hsim' : sameMatchers h0 (<[l0:=R']> h)).
    { eapply sameMatchers_trans; [exact Hsim | eapply sameMatchers_insert; eassumption]. }
    destruct c as [[|r|entry]|e].
    + apply IH; assumption.
    + intros [= <- <-].
      destruct (Hout R' (TryReturn r) eq_refl) as (m & off & Hex & Hsp & Hres).
      exists (i, m, off). simpl. split; [|auto].
      exists l0, R0. simpl. auto.
    + apply IH; try assumption.
      apply Forall_app. split; [assumption|].
      constructor; [|constructor].
      destruct (Hout R' (TryPush entry) eq_refl) as (Hidx & Hex & Hsp).
      exists l0, R0. rewrite Hidx. auto.
    + destruct (forgiving this); [apply IH; assumption | discriminate].
  - apply drop_cons_inv in Hdrop as [Hi Hdrop].
    rewrite forLoop_null. apply IH; assumption.
Qed.

Lemma firstAtIndex_provenance minIndex pending r :
  firstAtIndex minIndex pending = Normal (Some r) ->
  exists entry, entry ∈ pending /\ m_index entry.1.2 = minIndex /\
                toResult entry.1.1 entry.1.2 entry.2 = Normal r.
Proof.
  induction pending as [|[[i m] off] pending IH]; simpl; [discriminate|].
  destruct (m_index m =? minIndex) eqn:Hmin.
  - apply Z.eqb_eq in Hmin.
    destruct (toResult i m off) as [r'|e] eqn:Hr; intros [= <-].
    exists (i, m, off). split; [left | auto].
  - intros H. destruct (IH H) as (entry & Hin & Hrest).
    exists entry. split; [right; exact Hin | exact Hrest].
Qed.

Lemma closestPending_provenance pending r :
  closestPending pending = Normal (Some r) ->
  exists entry, entry ∈ pending /\ toResult entry.1.1 entry.1.2 entry.2 = Normal r.
Proof.
  unfold closestPending. destruct pending as [|[[i m] off] pending]; [discriminate|].
  intros H. apply firstAtIndex_provenance in H as (entry & Hin & _ & Hr). eauto.
Qed.

(** Every result of a scan is [toResult] of a candidate. *)
Lemma findNextMatchSync_provenance this string sp h h' r :
  findNextMatchSync this string sp h = (h', Normal (Some r)) ->
  exists entry,
    candidate this (textOf string) sp h entry /\
    toResult entry.1.1 entry.1.2 entry.2 = Normal r.
Proof.
  unfold findNextMatchSync. fold (textOf string).
  pose proof (forLoop_provenance this (textOf string) sp h (regexps this) 0 h []) as Hloop.
  destruct (forLoop this (textOf string) sp (regexps this) 0 h []) as [h1 [[r1|pending]|e]].
  - intros [= <- <-].
    destruct (Hloop h1 (Returned r1) eq_refl (sameMatchers_refl h) (List.Forall_nil _) eq_refl)
      as (entry & Hc & _ & Hr).
    eauto.
  - intros [= <- Hclosest].
    pose proof (Hloop h1 (Completed pending) eq_refl (sameMatchers_refl h) (List.Forall_nil _) eq_refl)
      as Hall.
    apply closestPending_provenance in Hclosest as (entry & Hin & Hr).
    exists entry. split; [|exact Hr].
    rewrite Forall_forall in Hall. apply Hall. exact Hin.
  - discriminate.
Qed.

(** ** Capture translation *)

Lemma toCapture_reported offset indice : reported offset indice (toCapture offset indice).
Proof. destruct indice as [[s e]|]; simpl; [|reflexivity]. repeat split; lia. Qed.

Lemma toResult_reported i m offset r :
  toResult i m offset = Normal r ->
  index r = i /\
  exists indices,
    m_indices m = Some indices /\
    captureIndices r = map (toCapture offset) indices /\
    Forall2 (reported offset) indices (captureIndices r).
Proof.
  unfold toResult. destruct (m_indices m) as [indices|]; [|discriminate].
  intros [= <-]. simpl. split; [reflexivity|].
  exists indices. repeat split.
  induction indices; simpl; constructor; auto using toCapture_reported.
Qed.

Lemma toResult_shiftMatch i m offset :
  toResult i (shiftMatch offset m) 0 = toResult i m offset.
Proof.
  unfold toResult, shiftMatch; simpl.
  destruct (m_indices m) as [indices|]; simpl; [|reflexivity].
  do 2 f_equal. rewrite map_map. apply map_ext.
  intros [[s e]|]; simpl; [|reflexivity]. f_equal; lia.
Qed.

(** A scanner with one pattern returns what its [try] block finds. *)
Lemma findNextMatchSync_single this string sp h l R anchor m offset indices :
  regexps this = [Some l] ->
  h !! l = Some R ->
  contiguousAnchorSimulation this !! 0%nat = Some anchor ->
  (execWithAnchor anchor (textOf string) sp R).2 = Normal (Some (m, offset)) ->
  m_indices m = Some indices ->
  (findNextMatchSync this string sp h).2
  = Normal (Some {| index := 0; captureIndices := map (toCapture offset) indices |}).
Proof.
  intros Hre HR Hanchor Hexec Hind.
  unfold findNextMatchSync. fold (textOf string).
  rewrite Hre, forLoop_regexp, HR, Hanchor. cbv zeta. simpl default.
  unfold tryBlock.
  destruct (execWithAnchor anchor (textOf string) sp R) as [R' c]. simpl in Hexec. subst c.
  unfold toResult. rewrite Hind.
  destruct (m_index m =? sp) eqn:Hsp; simpl.
  - reflexivity.
  - unfold Math_min; simpl. rewrite Z.eqb_refl. unfold toResult. rewrite Hind. reflexivity.
Qed.

(** When the direct search of an anchor-flagged pattern fails, the [try]
    block goes on with the match in the rest of the string and the offset
    [startPosition]. *)
Lemma execWithAnchor_retry str sp R m :
  (exec (set_lastIndex sp R) str).2 = Normal None ->
  (exec (set_lastIndex 0 R) (slice str sp)).2 = Normal (Some m) ->
  (execWithAnchor true str sp R).2 = Normal (Some (m, sp)).
Proof.
  intros Hdirect Hretry. unfold execWithAnchor.
  pose proof (exec_sameMatcher (set_lastIndex sp R) str) as HS.
  destruct (exec (set_lastIndex sp R) str) as [R1 c]. simpl in *. subst c.
  rewrite (exec_after_assignment R R1).
  - destruct (exec (set_lastIndex 0 R) (slice str sp)) as [R2 c]. simpl in *. subst c.
    reflexivity.
  - eapply sameMatcher_trans; [apply sameMatcher_set | exact HS].
Qed.

(** ** The constructor and the cache *)

Lemma compilePattern_cases rc f p idx st anchors :
  exists anchors',
    (exists entry,
        cache st !! p = Some entry /\
        compilePattern rc f p idx st anchors
        = (st, anchors',
           match entry with
           | CachedRegExp l => Normal (Some l)
           | CachedError e => if f then Normal None else Throw e
           end)) \/
    (exists regex,
        cache st !! p = None /\ rc p = Normal regex /\
        compilePattern rc f p idx st anchors
        = ({| heap := heap st ++ [regex];
              cache := <[p := CachedRegExp (length (heap st))]> (cache st);
              compiled := p :: compiled st |},
           anchors', Normal (Some (length (heap st))))) \/
    (exists e,
        cache st !! p = None /\ rc p = Throw e /\
        compilePattern rc f p idx st anchors
        = ({| heap := heap st;
              cache := <[p := CachedError e]> (cache st);
              compiled := p :: compiled st |},
           anchors', if f then Normal None else Throw e)).
Proof.
  unfold compilePattern.
  exists (if isContiguousAnchor p then <[idx := true]> anchors else anchors).
  destruct (cache st !! p) as [entry|] eqn:Hc.
  - left. exists entry. split; [reflexivity|]. destruct entry; reflexivity.
  - right. destruct (rc p) as [regex|e] eqn:Hrc.
    + left. exists regex. auto.
    + right. exists e. auto.
Qed.

(** One step of the constructor: what it does to the store. *)
Lemma compilePattern_store rc f p idx st anchors st' anchors' res :
  compilePattern rc f p idx st anchors = (st', anchors', res) ->
  (forall q, q <> p -> cache st' !! q = cache st !! q) /\
  (forall entry, cache st !! p = Some entry -> st' = st) /\
  (cache st !! p = None -> compiled st' = p :: compiled st) /\
  (exists new, heap st' = heap st ++ new) /\
  (storeAllocated st -> storeAllocated st') /\
  (forall r, res = Normal r ->
     exists entry, cache st' !! p = Some entry /\ r = slotOf entry /\
                   (f = false -> exists l, entry = CachedRegExp l)) /\
  (forall e, res = Throw e ->
     f = false /\ cache st' !! p = Some (CachedError e) /\
     failsToCompile rc (cache st) p e) /\
  (forall e, failsToCompile rc (cache st) p e ->
     cache st' !! p = Some (CachedError e) /\
     res = if f then Normal None else Throw e).
Proof.
  intros Hcp.
  destruct (compilePattern_cases rc f p idx st anchors)
    as (a & [(entry & Hc & Heq) | [(regex & Hc & Hrc & Heq) | (e & Hc & Hrc & Heq)]]);
    rewrite Heq in Hcp; injection Hcp as <- <- <-.
  - split_and!.
    + reflexivity.
    + reflexivity.
    + intros He0; congruence.
    + exists []. symmetry. apply app_nil_r.
    + auto.
    + intros r Hr. exists entry. split; [exact Hc|].
      destruct entry as [l|e]; [injection Hr as <-; eauto|].
      destruct f; [injection Hr as <-|discriminate]. split; [reflexivity | discriminate].
    + intros e He. destruct entry as [l|e']; [discriminate|].
      destruct f; [discriminate|]. injection He as <-.
      split_and!; [reflexivity | exact Hc | left; exact Hc].
    + intros e [H | [H _]]; [|congruence].
      rewrite Hc in H. injection H as ->. auto.
  - simpl. split_and!.
    + intros q Hq. apply lookup_insert_ne. congruence.
    + intros entry He; congruence.
    + reflexivity.
    + eauto.
    + intros Hwf q l. simpl. rewrite length_app; simpl.
      destruct (decide (p = q)) as [->|Hne].
      * rewrite lookup_insert_eq. intros [= <-]. lia.
      * rewrite lookup_insert_ne by exact Hne. intros Hq. apply Hwf in Hq. lia.
    + intros r [= <-]. exists (CachedRegExp (length (heap st))).
      rewrite lookup_insert_eq. eauto.
    + discriminate.
    + intros e [H | [_ H]]; congruence.
  - simpl. split_and!.
    + intros q Hq. apply lookup_insert_ne. congruence.
    + intros entry He; congruence.
    + reflexivity.
    + exists []. symmetry. apply app_nil_r.
    + intros Hwf q l. simpl.
      destruct (decide (p = q)) as [->|Hne].
      * rewrite lookup_insert_eq. discriminate.
      * rewrite lookup_insert_ne by exact Hne. apply Hwf.
    + intros r Hr. exists (CachedError e). rewrite lookup_insert_eq.
      destruct f; [injection Hr as <-|discriminate].
      split; [reflexivity|]. split; [reflexivity | discriminate].
    + intros e' He'. destruct f; [discriminate|]. injection He' as <-.
      split_and!; [reflexivity | apply lookup_insert_eq | right; auto].
    + intros e' [H | [_ H]]; [congruence|].
      rewrite Hrc in H. injection H as ->. split; [apply lookup_insert_eq | reflexivity].
Qed.

Lemma compilePattern_mono rc f p idx st anchors st' anchors' res q entry :
  compilePattern rc f p idx st anchors = (st', anchors', res) ->
  cache st !! q = Some entry -> cache st' !! q = Some entry.
Proof.
  intros Hcp Hq.
  destruct (compilePattern_store _ _ _ _ _ _ _ _ _ Hcp) as (Hother & Hsame & _).
  destruct (decide (q = p)) as [->|Hne].
  - rewrite (Hsame _ Hq). exact Hq.
  - rewrite Hother by exact Hne. exact Hq.
Qed.

Lemma compilePattern_fails rc f p idx st anchors st' anchors' res q e :
  compilePattern rc f p idx st anchors = (st', anchors', res) ->
  failsToCompile rc (cache st) q e -> failsToCompile rc (cache st') q e.
Proof.
  intros Hcp Hq.
  destruct (compilePattern_store _ _ _ _ _ _ _ _ _ Hcp)
    as (Hother & _ & _ & _ & _ & _ & _ & Hfail).
  destruct (decide (q = p)) as [->|Hne].
  - left. apply Hfail. exact Hq.
  - unfold failsToCompile. rewrite Hother by exact Hne. exact Hq.
Qed.

Lemma mapPatterns_nil rc f idx st anchors :
  mapPatterns rc f [] idx st anchors = (st, anchors, Normal []).
Proof. reflexivity. Qed.

Lemma mapPatterns_cons rc f p ps idx st anchors :
  mapPatterns rc f (p :: ps) idx st anchors
  = match compilePattern rc f p idx st anchors with
    | (st1, anchors1, Throw e) => (st1, anchors1, Throw e)
    | (st1, anchors1, Normal r) =>
        match mapPatterns rc f ps (S idx) st1 anchors1 with
        | (st2, anchors2, Throw e) => (st2, anchors2, Throw e)
        | (st2, anchors2, Normal rs) => (st2, anchors2, Normal (r :: rs))
        end
    end.
Proof. reflexivity. Qed.

(** The traversal of the constructor: what it does to the store, and how
    [this.regexps] relates to the cache it leaves. *)
Lemma mapPatterns_store rc f ps :
  forall idx st anchors st' anchors' res,
    mapPatterns rc f ps idx st anchors = (st', anchors', res) ->
    (forall q entry, cache st !! q = Some entry -> cache st' !! q = Some entry) /\
    (exists calls, compiled st' = calls ++ compiled st /\
                   forall q, q ∈ calls -> cache st !! q = None) /\
    (exists new, heap st' = heap st ++ new) /\
    (storeAllocated st -> storeAllocated st') /\
    (forall rs, res = Normal rs ->
       length rs = length ps /\
       forall k q, ps !! k = Some q ->
         exists entry, cache st' !! q = Some entry /\ rs !! k = Some (slotOf entry) /\
                       (f = false -> exists l, entry = CachedRegExp l)) /\
    (forall q e, failsToCompile rc (cache st) q e -> failsToCompile rc (cache st') q e) /\
    (f = true -> exists rs, res = Normal rs).
Proof.
  induction ps as [|p ps IH]; intros idx st anchors st' anchors' res.
  - rewrite mapPatterns_nil. intros [= <- <- <-]. split_and!.
    + auto.
    + exists []. split; [reflexivity|]. intros q Hq. inversion Hq.
    + exists []. symmetry. apply app_nil_r.
    + auto.
    + intros rs [= <-]. split; [reflexivity|]. intros k q Hk. destruct k; discriminate.
    + auto.
    + eauto.
  - rewrite mapPatterns_cons.
    destruct (compilePattern rc f p idx st anchors) as [[st1 anchors1] res1] eqn:Hcp.
    pose proof (compilePattern_store _ _ _ _ _ _ _ _ _ Hcp)
      as (Hother & Hsame & Hcalls & (new1 & Hheap1) & Hwf1 & Hslot & Hthrow & Hfail).
    destruct res1 as [r|e].
    + destruct (mapPatterns rc f ps (S idx) st1 anchors1) as [[st2 anchors2] res2] eqn:Hmp.
      destruct (IH _ _ _ _ _ _ Hmp)
        as (Hmono2 & (calls2 & Hcalls2 & Hnone2) & (new2 & Hheap2) & Hwf2 & Hslots2 & Hfail2 & Hforg2).
      intros Heq.
      assert (Heq' : st' = st2 /\ res = match res2 with
                                         | Normal rs => Normal (r :: rs)
                                         | Throw e => Throw e
                                         end).
      { destruct res2; injection Heq as <- <- <-; auto. }
      clear Heq. destruct Heq' as [-> ->].
      split_and!.
      * intros q entry Hq. apply Hmono2. eapply compilePattern_mono; eassumption.
      * destruct (cache st !! p) as [entry|] eqn:Hc.
        -- rewrite (Hsame _ eq_refl) in *. exists calls2. split; [exact Hcalls2 | exact Hnone2].
        -- exists (calls2 ++ [p]). split.
           ++ rewrite Hcalls2, Hcalls by reflexivity. rewrite <- app_assoc. reflexivity.
           ++ intros q Hq. apply elem_of_app in Hq as [Hq | Hq].
              ** destruct (decide (q = p)) as [->|Hne]; [exact Hc|].
                 rewrite <- Hother by exact Hne. apply Hnone2. exact Hq.
              ** apply list_elem_of_singleton in Hq as ->. exact Hc.
      * exists (new1 ++ new2). rewrite Hheap2, Hheap1, app_assoc. reflexivity.
      * auto.
      * intros rs Hrs. destruct res2 as [rs2|]; [|discriminate]. injection Hrs as <-.
        destruct (Hslots2 rs2 eq_refl) as [Hlen Hk]. split; [simpl; congruence|].
        intros [|k] q Hq; simpl in Hq.
        -- injection Hq as <-.
           destruct (Hslot r eq_refl) as (entry & Hc & -> & Hnf).
           exists entry. split_and!; [apply Hmono2; exact Hc | reflexivity | exact Hnf].
        -- apply Hk. exact Hq.
      * intros q e Hq. apply Hfail2. eapply compilePattern_fails; eassumption.
      * intros Hf. destruct (Hforg2 Hf) as [rs ->]. eauto.
    + intros [= <- <- <-].
      destruct (Hthrow e eq_refl) as (Hf & Hc & Hfe).
      split_and!.
      * intros q entry Hq. eapply compilePattern_mono; eassumption.
      * destruct (cache st !! p) as [entry|] eqn:Hc0.
        -- rewrite (Hsame _ eq_refl). exists []. split; [reflexivity|].
           intros q Hq. inversion Hq.
        -- exists [p]. split; [apply Hcalls; reflexivity|].
           intros q Hq. apply list_elem_of_singleton in Hq as ->. exact Hc0.
      * eauto.
      * auto.
      * discriminate.
      * intros q e' Hq. eapply compilePattern_fails; eassumption.
      * congruence.
Qed.

(** In non-forgiving mode the traversal throws the error of the first
    pattern that fails to compile. *)
Lemma mapPatterns_first_failure rc ps :
  forall idx st anchors p0 e0,
    p0 ∈ ps -> failsToCompile rc (cache st) p0 e0 ->
    exists pre p suf e,
      ps = pre ++ p :: suf /\
      (forall q e', q ∈ pre -> ~ failsToCompile rc (cache st) q e') /\
      failsToCompile rc (cache st) p e /\
      (mapPatterns rc false ps idx st anchors).2 = Throw e /\
      cache (mapPatterns rc false ps idx st anchors).1.1 !! p = Some (CachedError e).
Proof.
  induction ps as [|p ps IH]; intros idx st anchors p0 e0 Hin Hfail0.
  - inversion Hin.
  - rewrite mapPatterns_cons.
    destruct (compilePattern rc false p idx st anchors) as [[st1 anchors1] res1] eqn:Hcp.
    pose proof (compilePattern_store _ _ _ _ _ _ _ _ _ Hcp)
      as (Hother & _ & _ & _ & _ & Hslot & Hthrow & Hfail).
    destruct res1 as [r|e].
    + assert (Hok : forall e', ~ failsToCompile rc (cache st) p e').
      { intros e' He'. destruct (Hfail e' He') as [_ Hres]. discriminate. }
      assert (Hne : p0 <> p) by (intros ->; exact (Hok _ Hfail0)).
      apply elem_of_cons in Hin as [Heq | Hin]; [contradiction|].
      pose proof (compilePattern_fails _ _ _ _ _ _ _ _ _ _ _ Hcp Hfail0) as Hfail1.
      destruct (IH (S idx) st1 anchors1 p0 e0 Hin Hfail1)
        as (pre & p' & suf & e & -> & Hpre & Hp' & Hres & Hrec).
      destruct (Hslot r eq_refl) as (entry & Hentry & _ & Hl).
      destruct (Hl eq_refl) as [l ->].
      assert (Hne' : p' <> p).
      { intros ->. destruct Hp' as [H | [H _]]; congruence. }
      exists (p :: pre), p', suf, e. split_and!.
      * reflexivity.
      * intros q e' Hq Hq'. apply elem_of_cons in Hq as [-> | Hq].
        -- exact (Hok _ Hq').
        -- apply (Hpre q e' Hq). eapply compilePattern_fails; eassumption.
      * unfold failsToCompile in *. rewrite <- (Hother p' Hne'). exact Hp'.
      * destruct (mapPatterns rc false (pre ++ p' :: suf) (S idx) st1 anchors1)
          as [[st2 anchors2] [rs|e2]]; simpl in *; congruence.
      * destruct (mapPatterns rc false (pre ++ p' :: suf) (S idx) st1 anchors1)
          as [[st2 anchors2] [rs|e2]]; simpl in *; congruence.
    + destruct (Hthrow e eq_refl) as (_ & Hrec & Hfe).
      exists [], p, ps, e. split_and!; auto.
      intros q e' Hq. inversion Hq.
Qed.

(** A loop over null slots only does nothing. *)
Lemma forLoop_all_null this str sp rest :
  Forall (fun r => r = None) rest ->
  forall i h pending,
    forLoop this str sp rest i h pending = (h, Normal (Completed pending)).
Proof.
  induction 1 as [|r rest -> _ IH]; intros i h pending.
  - reflexivity.
  - rewrite forLoop_null. apply IH.
Qed.

(** The loop over [pre ++ suf] is the loop over [pre] followed, unless it
    returned or threw, by the loop over [suf]. *)
Lemma forLoop_app this str sp pre suf :
  forall i h pending,
    forLoop this str sp (pre ++ suf) i h pending
    = match forLoop this str sp pre i h pending with
      | (h1, Normal (Completed pending1)) =>
          forLoop this str sp suf (i + length pre) h1 pending1
      | out => out
      end.
Proof.
  induction pre as [|[l|] pre IH]; intros i h pending.
  - simpl app. rewrite forLoop_nil. simpl length. rewrite Nat.add_0_r. reflexivity.
  - simpl app. rewrite !forLoop_regexp. simpl length.
    replace (i + S (length pre))%nat with (S i + length pre)%nat by lia.
    destruct (h !! l) as [R|]; [|apply IH].
    cbv zeta. destruct (tryBlock _ i str sp R) as [R' [[|r|entry]|e]]; auto.
    destruct (forgiving this); auto.
  - simpl app. rewrite !forLoop_null. simpl length.
    replace (i + S (length pre))%nat with (S i + length pre)%nat by lia.
    apply IH.
Qed.

Lemma findNextMatchSync_afterLoop this string sp h :
  findNextMatchSync this string sp h
  = afterLoop (forLoop this (textOf string) sp (regexps this) 0 h []).
Proof. reflexivity. Qed.

Lemma findNextMatchSync_frame this string sp h :
  sameMatchers h (findNextMatchSync this string sp h).1 /\
  forall l, Some l ∉ regexps this ->
    (findNextMatchSync this string sp h).1 !! l = h !! l.
Proof.
  rewrite findNextMatchSync_afterLoop.
  pose proof (forLoop_frame this (textOf string) sp (regexps this) 0 h []) as H.
  destruct (forLoop this (textOf string) sp (regexps this) 0 h []) as [h1 [[r|pending]|e]];
    exact H.
Qed.

Lemma findNextMatchSync_history this string sp h1 h2 :
  sameMatchers h1 h2 ->
  (findNextMatchSync this string sp h2).2 = (findNextMatchSync this string sp h1).2.
Proof.
  intros Hsim. rewrite !findNextMatchSync_afterLoop.
  pose proof (forLoop_history this (textOf string) sp (regexps this) 0 h1 h2 [] Hsim) as H.
  destruct (forLoop this (textOf string) sp (regexps this) 0 h1 []) as [h1' c1].
  destruct (forLoop this (textOf string) sp (regexps this) 0 h2 []) as [h2' c2].
  simpl in H. subst c2. destruct c1 as [[r|pending]|e]; reflexivity.
Qed.

(** The constructor: what it does to the store, and how the scanner
    relates to the cache it leaves. *)
Lemma newJavaScriptScanner_store rc f ps st :
  let out := newJavaScriptScanner ps f rc st in
  (forall q entry, cache st !! q = Some entry -> cache out.1 !! q = Some entry) /\
  (exists calls, compiled out.1 = calls ++ compiled st /\
                 forall q, q ∈ calls -> cache st !! q = None) /\
  (exists new, heap out.1 = heap st ++ new) /\
  (storeAllocated st -> storeAllocated out.1) /\
  (forall this, out.2 = Normal this ->
     patterns this = ps /\ forgiving this = f /\
     length (regexps this) = length ps /\
     forall k q, ps !! k = Some q ->
       exists entry, cache out.1 !! q = Some entry /\
                     regexps this !! k = Some (slotOf entry) /\
                     (f = false -> exists l, entry = CachedRegExp l)) /\
  (forall q e, failsToCompile rc (cache st) q e -> failsToCompile rc (cache out.1) q e) /\
  (f = true -> exists this, out.2 = Normal this).
Proof.
  unfold newJavaScriptScanner.
  destruct (mapPatterns rc f ps 0 st (replicate (length ps) false))
    as [[st' anchors'] res] eqn:Hmp.
  destruct (mapPatterns_store _ _ _ _ _ _ _ _ _ Hmp)
    as (Hmono & Hcalls & Hheap & Hwf & Hslots & Hfail & Hforg).
  destruct res as [rs|e]; cbn [fst snd]; split_and!; auto.
  - intros this [= <-]. cbn. destruct (Hslots rs eq_refl) as [Hlen Hk]. auto.
  - intros _. eauto.
  - discriminate.
  - intros Hf. destruct (Hforg Hf) as [rs Hrs]. discriminate.
Qed.

Lemma storeAllocated_empty : storeAllocated emptyStore.
Proof. intros q l Hq. simpl in Hq. rewrite lookup_empty in Hq. discriminate. Qed.

(** A scanner built on a store whose cache points into the heap holds
    allocated locations only. *)
Lemma newJavaScriptScanner_allocated rc f ps st this :
  storeAllocated st ->
  (newJavaScriptScanner ps f rc st).2 = Normal this ->
  forall l, Some l ∈ regexps this ->
    (l < length (heap (newJavaScriptScanner ps f rc st).1))%nat.
Proof.
  intros Hwf Hthis l Hl.
  destruct (newJavaScriptScanner_store rc f ps st)
    as (_ & _ & _ & Hwf' & Hslots & _).
  destruct (Hslots this Hthis) as (_ & _ & Hlen & Hk).
  apply list_elem_of_lookup in Hl as [k Hl].
  assert (Hlt : (k < length ps)%nat).
  { rewrite <- Hlen. eapply lookup_lt_Some. exact Hl. }
  apply lookup_lt_is_Some in Hlt as [q Hq].
  destruct (Hk k q Hq) as (entry & Hc & Hr & _).
  rewrite Hl in Hr. injection Hr as Hr.
  destruct entry as [l'|e]; [|discriminate]. injection Hr as ->.
  eapply Hwf'; eauto.
Qed.

Lemma tryBlock_throw anchor i str sp R e :
  (execWithAnchor anchor str sp R).2 = Throw e ->
  tryBlock anchor i str sp R = ((execWithAnchor anchor str sp R).1, Throw e).
Proof.
  unfold tryBlock. destruct (execWithAnchor anchor str sp R) as [R' c].
  simpl. intros ->. reflexivity.
Qed.

(** The anchor flags of a scanner are those of its patterns. *)
Lemma compilePattern_anchors rc f p idx st anchors st' anchors' res :
  compilePattern rc f p idx st anchors = (st', anchors', res) ->
  anchors' = if isContiguousAnchor p then <[idx := true]> anchors else anchors.
Proof.
  unfold compilePattern.
  destruct (cache st !! p) as [[l|e]|]; [| |destruct (rc p)];
    intros [= <- <- <-]; reflexivity.
Qed.

Lemma mapPatterns_anchors rc f ps :
  forall done n idx st anchors st' anchors' rs,
    idx = length done ->
    anchors = map isContiguousAnchor done ++ replicate (length ps + n) false ->
    mapPatterns rc f ps idx st anchors = (st', anchors', Normal rs) ->
    anchors' = map isContiguousAnchor (done ++ ps) ++ replicate n false.
Proof.
  induction ps as [|p ps IH]; intros done n idx st anchors st' anchors' rs Hidx Hanchors.
  - rewrite mapPatterns_nil. intros [= <- <- <-]. rewrite app_nil_r. exact Hanchors.
  - rewrite mapPatterns_cons.
    destruct (compilePattern rc f p idx st anchors) as [[st1 anchors1] [r|e]] eqn:Hcp;
      [|discriminate].
    apply compilePattern_anchors in Hcp.
    destruct (mapPatterns rc f ps (S idx) st1 anchors1) as [[st2 anchors2] [rs2|e]] eqn:Hmp;
      [|discriminate].
    intros [= <- <- <-].
    rewrite (IH (done ++ [p]) n (S idx) st1 anchors1 st2 anchors2 rs2); try assumption.
    + rewrite <- app_assoc. reflexivity.
    + rewrite length_app. simpl. lia.
    + rewrite Hcp, Hanchors, map_app. simpl map. simpl replicate.
      rewrite <- app_assoc. simpl app.
      destruct (isContiguousAnchor p).
      * rewrite Hidx, <- (length_map isContiguousAnchor done).
        rewrite insert_app_r_alt by lia. rewrite Nat.sub_diag. reflexivity.
      * reflexivity.
Qed.

Lemma newJavaScriptScanner_anchors rc f ps st this :
  (newJavaScriptScanner ps f rc st).2 = Normal this ->
  contiguousAnchorSimulation this = map isContiguousAnchor ps.
Proof.
  unfold newJavaScriptScanner.
  destruct (mapPatterns rc f ps 0 st (replicate (length ps) false))
    as [[st' anchors'] [rs|e]] eqn:Hmp; [|discriminate].
  intros [= <-]. simpl.
  rewrite (mapPatterns_anchors rc f ps [] 0 0 st (replicate (length ps) false)
             st' anchors' rs eq_refl).
  - rewrite app_nil_r. reflexivity.
  - rewrite Nat.add_0_r. reflexivity.
  - exact Hmp.
Qed.

(** ** The loop, iteration by iteration *)

Lemma sameMatchers_lookup_None_r h h' l :
  sameMatchers h h' -> h' !! l = None -> h !! l = None.
Proof.
  intros H Hl. apply lookup_ge_None. apply lookup_ge_None in Hl.
  rewrite (Forall2_length _ _ _ H). exact Hl.
Qed.

(** While the iterations pass, the loop runs to its end and [pending]
    collects what they push, in order. *)
Lemma forLoop_passes this str sp h0 rest suf :
  forall i h pending,
    drop i (regexps this) = rest ++ suf ->
    sameMatchers h0 h ->
    (forall j, (i <= j < i + length rest)%nat ->
               passes (forgiving this) (iteration this str sp h0 j)) ->
    exists h',
      sameMatchers h0 h' /\
      forLoop this str sp rest i h pending
      = (h', Normal (Completed
                       (pending ++ flat_map (fun j => pushed (iteration this str sp h0 j))
                                     (seq i (length rest))))).
Proof.
  induction rest as [|[l|] rest IH]; intros i h pending Hdrop Hsim Hpass.
  - exists h. rewrite forLoop_nil. simpl. rewrite app_nil_r. auto.
  - apply drop_cons_inv in Hdrop as [Hi Hdrop].
    assert (Hrest : forall j, (S i <= j < S i + length rest)%nat ->
                              passes (forgiving this) (iteration this str sp h0 j)).
    { intros j Hj. apply Hpass. simpl. lia. }
    assert (Hhere : passes (forgiving this) (iteration this str sp h0 i)).
    { apply Hpass. simpl. lia. }
    rewrite forLoop_regexp. simpl length. simpl seq. simpl flat_map.
    unfold iteration in Hhere |- * at 1. rewrite Hi in Hhere |- *.
    destruct (h !! l) as [R|] eqn:HR.
    + destruct (sameMatchers_lookup_r _ _ _ _ Hsim HR) as (R0 & HR0 & HRR).
      rewrite HR0 in Hhere |- *. cbv zeta.
      rewrite <- (tryBlock_history _ i str sp R0 R HRR) in Hhere |- *.
      pose proof (tryBlock_sameMatcher
                    (default false (contiguousAnchorSimulation this !! i)) i str sp R) as HS.
      destruct (tryBlock _ i str sp R) as [R' c]; simpl in HS, Hhere |- *.
      assert (Hsim' : sameMatchers h0 (<[l:=R']> h)).
      { eapply sameMatchers_trans; [exact Hsim | eapply sameMatchers_insert; eassumption]. }
      destruct c as [[|r|entry]|e]; simpl in Hhere |- *.
      * apply IH; assumption.
      * contradiction.
      * destruct (IH (S i) (<[l:=R']> h) (pending ++ [entry]) Hdrop Hsim' Hrest)
          as (h' & Hh' & Heq).
        exists h'. rewrite Heq, <- app_assoc. auto.
      * rewrite Hhere. apply IH; assumption.
    + rewrite (sameMatchers_lookup_None_r _ _ _ Hsim HR). simpl. apply IH; assumption.
  - apply drop_cons_inv in Hdrop as [Hi Hdrop].
    rewrite forLoop_null. simpl length. simpl seq. simpl flat_map.
    unfold iteration at 1. rewrite Hi. simpl.
    apply IH; try assumption.
    intros j Hj. apply Hpass. simpl. lia.
Qed.

(** The first iteration that returns decides the scan. *)
Lemma findNextMatchSync_immediate this string sp h i r :
  (forall j, (j < i)%nat ->
             passes (forgiving this) (iteration this (textOf string) sp h j)) ->
  iteration this (textOf string) sp h i = Some (Normal (TryReturn r)) ->
  (findNextMatchSync this string sp h).2 = Normal (Some r).
Proof.
  intros Hpass Hi.
  assert (Hlt : (i < length (regexps this))%nat).
  { unfold iteration in Hi. destruct (regexps this !! i) eqn:Hl; [|discriminate].
    eapply lookup_lt_Some. exact Hl. }
  rewrite findNextMatchSync_afterLoop.
  rewrite <- (take_drop i (regexps this)) at 1. rewrite forLoop_app.
  destruct (forLoop_passes this (textOf string) sp h (take i (regexps this))
              (drop i (regexps this)) 0 h [])
    as (h1 & Hsim1 & Heq1).
  - rewrite drop_0. symmetry. apply take_drop.
  - apply sameMatchers_refl.
  - intros j Hj. apply Hpass. rewrite length_take in Hj. lia.
  - rewrite Heq1. rewrite length_take, Nat.min_l by lia. simpl Nat.add.
    unfold iteration in Hi.
    destruct (regexps this !! i) as [[l|]|] eqn:Hl; try discriminate.
    rewrite (drop_S _ _ _ Hl), forLoop_regexp.
    destruct (h !! l) as [R0|] eqn:HR0; [|discriminate].
    destruct (sameMatchers_lookup _ _ _ _ Hsim1 HR0) as (R & HR & HRR).
    rewrite HR. cbv zeta. rewrite (tryBlock_history _ i (textOf string) sp R0 R HRR).
    destruct (tryBlock _ i (textOf string) sp R0) as [R' c]. simpl in Hi.
    injection Hi as ->. reflexivity.
Qed.

(** When every iteration passes, the scan returns the closest of the
    pending matches that the iterations pushed. *)
Lemma findNextMatchSync_closest this string sp h :
  (forall j, (j < length (regexps this))%nat ->
             passes (forgiving this) (iteration this (textOf string) sp h j)) ->
  (findNextMatchSync this string sp h).2
  = closestPending
      (flat_map (fun j => pushed (iteration this (textOf string) sp h j))
         (seq 0 (length (regexps this)))).
Proof.
  intros Hpass. rewrite findNextMatchSync_afterLoop.
  destruct (forLoop_passes this (textOf string) sp h (regexps this) [] 0 h [])
    as (h1 & _ & Heq).
  - rewrite drop_0, app_nil_r. reflexivity.
  - apply sameMatchers_refl.
  - intros j Hj. apply Hpass. lia.
  - rewrite Heq. reflexivity.
Qed.

(** ** The closest pending match *)

Lemma Math_min_least x xs :
  Math_min x xs ∈ x :: xs /\ forall y, y ∈ x :: xs -> Math_min x xs <= y.
Proof.
  unfold Math_min. revert x. induction xs as [|a xs IH]; intros x; simpl.
  - split; [left|]. intros y Hy. apply list_elem_of_singleton in Hy as ->. lia.
  - destruct (IH (Z.min x a)) as [Hin Hle]. split.
    + apply elem_of_cons in Hin as [Heq | Hin].
      * rewrite Heq. destruct (Z.min_spec x a) as [[_ ->] | [_ ->]];
          [left | right; left].
      * right; right. exact Hin.
    + intros y Hy.
      assert (Hm : fold_left Z.min xs (Z.min x a) <= Z.min x a) by (apply Hle; left).
      apply elem_of_cons in Hy as [-> | Hy]; [lia|].
      apply elem_of_cons in Hy as [-> | Hy]; [lia|].
      apply Hle. right. exact Hy.
Qed.

Lemma firstAtIndex_first minIndex pending entry :
  entry ∈ pending -> m_index entry.1.2 = minIndex ->
  exists pre first suf,
    pending = pre ++ first :: suf /\
    m_index first.1.2 = minIndex /\
    Forall (fun e => m_index e.1.2 <> minIndex) pre /\
    firstAtIndex minIndex pending
    = match toResult first.1.1 first.1.2 first.2 with
      | Normal r => Normal (Some r)
      | Throw e => Throw e
      end.
Proof.
  induction pending as [|[[i m] off] pending IH]; intros Hin Hentry.
  - inversion Hin.
  - simpl. destruct (m_index m =? minIndex) eqn:Hm.
    + apply Z.eqb_eq in Hm. exists [], (i, m, off), pending. simpl. auto.
    + apply Z.eqb_neq in Hm.
      apply elem_of_cons in Hin as [-> | Hin]; [contradiction|].
      destruct (IH Hin Hentry) as (pre & first & suf & -> & Hfirst & Hpre & Hres).
      exists ((i, m, off) :: pre), first, suf. split_and!; auto.
Qed.

(** What the code after the loop returns: the result of the first
    pending candidate whose [match.index], as the search reported it and
    without the offset of the candidate, is the least. *)
Lemma closestPending_least_index pending :
  pending <> [] ->
  exists pre first suf,
    pending = pre ++ first :: suf /\
    Forall (fun e => m_index first.1.2 < m_index e.1.2) pre /\
    Forall (fun e => m_index first.1.2 <= m_index e.1.2) suf /\
    closestPending pending
    = match toResult first.1.1 first.1.2 first.2 with
      | Normal r => Normal (Some r)
      | Throw e => Throw e
      end.
Proof.
  destruct pending as [|[[i m] off] pending]; [congruence|]. intros _.
  unfold closestPending.
  set (minIndex := Math_min (m_index m) (map (fun e => m_index e.1.2) pending)).
  destruct (Math_min_least (m_index m) (map (fun e : PendingEntry => m_index e.1.2) pending))
    as [Hin Hle].
  fold minIndex in Hin, Hle.
  change (m_index m :: map (fun e : PendingEntry => m_index e.1.2) pending)
    with (map (fun e : PendingEntry => m_index e.1.2) ((i, m, off) :: pending)) in Hin, Hle.
  apply list_elem_of_fmap in Hin as (entry & Hentry & Hin).
  destruct (firstAtIndex_first minIndex _ entry Hin (eq_sym Hentry))
    as (pre & first & suf & Heq & Hfirst & Hpre & Hres).
  exists pre, first, suf. rewrite Hfirst. split_and!; try assumption.
  - apply Forall_forall. intros e He.
    rewrite Forall_forall in Hpre. specialize (Hpre e He).
    assert (minIndex <= m_index e.1.2); [|lia].
    apply Hle. apply list_elem_of_fmap. exists e. split; [reflexivity|].
    rewrite Heq. apply elem_of_app. left. exact He.
  - apply Forall_forall. intros e He.
    apply Hle. apply list_elem_of_fmap. exists e. split; [reflexivity|].
    rewrite Heq. apply elem_of_app. right. right. exact He.
Qed.

(** ** The examples *)

Example closestScanner_built :
  exampleScanner false ["x"; "(^|\G)(?<=^..)b"] = Some (closestScanner, closestHeap).
Proof. vm_compute. reflexivity. Qed.

Example precedenceScanner_built :
  exampleScanner false ["(^|\G)\bb"; "b"] = Some (precedenceScanner, precedenceHeap).
Proof. vm_compute. reflexivity. Qed.

Example anchorScanner_built :
  exampleScanner false ["(^|\G)\b(?:(a)|(b))"] = Some (anchorScanner, anchorHeap).
Proof. vm_compute. reflexivity. Qed.

Example plainScanner_built :
  exampleScanner false ["b"] = Some (plainScanner, plainHeap).
Proof. vm_compute. reflexivity. Qed.

Example groupsScanner_built :
  exampleScanner false ["(a)|(b)"] = Some (groupsScanner, groupsHeap).
Proof. vm_compute. reflexivity. Qed.

Example pickyScanner_built forgiving :
  scannerWith pickyConstructor forgiving ["b"] = Some (pickyScanner forgiving, pickyHeap).
Proof. destruct forgiving; vm_compute; reflexivity. Qed.

(** A start position beyond the end of the buffer. *)
Example scan_beyond_end :
  exampleScan false ["a"; "(^|\G)b"] "xaby" 9 = Some (Normal None).
Proof. vm_compute. reflexivity. Qed.

(** The anchor retry: [b] at a word boundary is not found in [ab] from 1,
    and is found in the rest of the string. *)
Example scan_anchor_retry :
  exampleScan false ["(^|\G)\bb"] "ab" 1
  = Some (Normal (Some {| index := 0;
                          captureIndices := [{| c_start := 1; c_length := 1; c_end := 2 |}] |})) /\
  exampleScan false ["(^|\G)\bb"] "ab" 0 = Some (Normal None).
Proof. vm_compute. auto. Qed.

(** A forgiving scanner none of whose patterns compiles. *)
Example scan_all_disabled :
  exampleScan true ["(("; "[a"] "xaby" 0 = Some (Normal None) /\
  exampleScan false ["(("; "[a"] "xaby" 0 = None.
Proof. vm_compute. auto. Qed.

(** The two examples of the specification. *)
Example scan_immediate :
  exampleScan false ["a"; "(^|\G)b"] "xaby" 1
  = Some (Normal (Some {| index := 0;
                          captureIndices := [{| c_start := 1; c_length := 1; c_end := 2 |}] |})).
Proof. vm_compute. reflexivity. Qed.

Example scan_pending :
  exampleScan false ["c"; "a"] "xaby" 0
  = Some (Normal (Some {| index := 1;
                          captureIndices := [{| c_start := 1; c_length := 1; c_end := 2 |}] |})).
Proof. vm_compute. reflexivity. Qed.

(** * The claims *)

(** C1, at an input where the code departs from it. The claim: when no
    match starts at [startPosition], the candidate with the least
    absolute start (anchor correction included) is returned. Here, on
    the buffer [aaayxb] from position 3, pattern 0 matches at 4 and the
    anchor-flagged pattern 1 is found by the retry at 2 in the rest of
    the string, that is at 5 in the buffer; the code compares the
    uncorrected 2 with 4 and returns pattern 1, which starts at 5. *)
Theorem C1_closest_compares_uncorrected_index :
  exampleScanner false ["x"; "(^|\G)(?<=^..)b"] = Some (closestScanner, closestHeap) /\
  (execWithAnchor false "aaayxb" 3 (dgm "x" (literalChar "x"))).2
    = Normal (Some ({| m_index := 4; m_indices := Some [Some (4, 5)] |}, 0)) /\
  (execWithAnchor true "aaayxb" 3 (dgm "(?<=^..)b" (charAtColumn 2 "b"))).2
    = Normal (Some ({| m_index := 2; m_indices := Some [Some (2, 3)] |}, 3)) /\
  (findNextMatchSync closestScanner (inl "aaayxb") 3 closestHeap).2
    = Normal (Some {| index := 1;
                      captureIndices := [{| c_start := 5; c_length := 1; c_end := 6 |}] |}).
Proof. vm_compute. auto. Qed.

(** C2, at an input where the code departs from it. The claim: a match
    whose absolute start is [startPosition], also one found by the anchor
    retry, is returned at once, for the lowest such pattern. Here, on the
    buffer [ab] from position 1, the anchor-flagged pattern 0 (a [b] at
    a word boundary) is not found in the buffer and is found by the
    retry at 0 in the rest of the string, that is at 1 in the buffer;
    the code compares the uncorrected 0 with 1, keeps the match as
    pending, and returns pattern 1, which matches at 1 directly. *)
Theorem C2_immediate_compares_uncorrected_index :
  exampleScanner false ["(^|\G)\bb"; "b"] = Some (precedenceScanner, precedenceHeap) /\
  (execWithAnchor true "ab" 1 (dgm "\bb" (charAtWordStart "b"))).2
    = Normal (Some ({| m_index := 0; m_indices := Some [Some (0, 1)] |}, 1)) /\
  (execWithAnchor false "ab" 1 (dgm "b" (literalChar "b"))).2
    = Normal (Some ({| m_index := 1; m_indices := Some [Some (1, 2)] |}, 0)) /\
  (findNextMatchSync precedenceScanner (inl "ab") 1 precedenceHeap).2
    = Normal (Some {| index := 1;
                      captureIndices := [{| c_start := 1; c_length := 1; c_end := 2 |}] |}).
Proof. vm_compute. auto. Qed.

(** C3: when the direct search of the anchor-flagged pattern [i] fails and
    the search in [str.slice(startPosition)] finds [m], the result for
    pattern [i] has [startPosition] added to the start and to the end of
    every participating group of [m]: whenever the scan returns pattern
    [i] this is its result, a scanner with this pattern alone does return
    it, and it is the result of the same match seen at its absolute
    offsets in the buffer. *)
Theorem C3_anchor_retry_offsets this string sp h i l R m indices :
  regexps this !! i = Some (Some l) ->
  h !! l = Some R ->
  contiguousAnchorSimulation this !! i = Some true ->
  (exec (set_lastIndex sp R) (textOf string)).2 = Normal None ->
  (exec (set_lastIndex 0 R) (slice (textOf string) sp)).2 = Normal (Some m) ->
  m_indices m = Some indices ->
  let result := {| index := i; captureIndices := map (toCapture sp) indices |} in
  (forall h' r,
      findNextMatchSync this string sp h = (h', Normal (Some r)) ->
      index r = i -> r = result) /\
  (regexps this = [Some l] ->
   (findNextMatchSync this string sp h).2 = Normal (Some result)) /\
  Forall2 (reported sp) indices (captureIndices result) /\
  toResult i (shiftMatch sp m) 0 = Normal result.
Proof.
  intros Hi HR Hanchor Hdirect Hretry Hind result.
  pose proof (execWithAnchor_retry _ _ _ _ Hdirect Hretry) as Hexec.
  assert (Hres : toResult i m sp = Normal result).
  { unfold toResult. rewrite Hind. reflexivity. }
  split_and!.
  - intros h' r Hfind Hidx.
    apply findNextMatchSync_provenance in Hfind as ([[i' m'] off'] & Hcand & Hr).
    simpl in Hr. pose proof (toResult_reported _ _ _ _ Hr) as [Hidx' _].
    assert (i' = i) as -> by congruence.
    destruct Hcand as (l' & R' & Hi' & HR' & Hexec'). cbn [fst snd] in *.
    rewrite Hi in Hi'. injection Hi' as <-.
    rewrite HR in HR'. injection HR' as <-.
    rewrite Hanchor in Hexec'. simpl in Hexec'.
    rewrite Hexec in Hexec'. injection Hexec' as <- <-.
    congruence.
  - intros Hsingle.
    assert (i = 0)%nat as ->.
    { rewrite Hsingle in Hi. destruct i as [|[|i]]; [reflexivity | discriminate..]. }
    eapply findNextMatchSync_single; eauto.
  - eapply toResult_reported in Hres as (_ & indices' & Hind' & _ & Hrep).
    congruence.
  - rewrite toResult_shiftMatch. exact Hres.
Qed.

Lemma C3_anchor_retry_offsets_witness :
  (findNextMatchSync anchorScanner (inl "xxb") 2 anchorHeap).2
  = Normal (Some {| index := 0;
                    captureIndices :=
                      [{| c_start := 2; c_length := 1; c_end := 3 |};
                       {| c_start := MAX; c_length := 0; c_end := MAX |};
                       {| c_start := 2; c_length := 1; c_end := 3 |}] |}).
Proof.
  apply (C3_anchor_retry_offsets anchorScanner (inl "xxb") 2 anchorHeap 0 0
           (dgm "\b(?:(a)|(b))" (eitherCharAtWordStart "a" "b"))
           {| m_index := 0; m_indices := Some [Some (0, 1); None; Some (0, 1)] |}
           [Some (0, 1); None; Some (0, 1)]); reflexivity.
Defined.

(** C4, as stated, fails: the search offset is kept on the shared object.
    A scan of [ab] from position 1 with the pattern [b] leaves [lastIndex]
    of the compiled expression at 2, where it was 0. *)
Lemma C4_lastIndex_modified :
  lastIndex <$> plainHeap !! 0%nat = Some 0 /\
  lastIndex <$> (findNextMatchSync plainScanner (inl "ab") 1 plainHeap).1 !! 0%nat = Some 2 /\
  (findNextMatchSync plainScanner (inl "ab") 1 plainHeap).1 <> plainHeap.
Proof.
  split_and!; [reflexivity | reflexivity |].
  intros H. apply (f_equal (fun h => lastIndex <$> h !! 0%nat)) in H. discriminate H.
Qed.

(** C4, amended: a scan writes to one field of the shared objects only,
    [lastIndex], and only on the expressions of [this.regexps], those
    that another scanner holds too through the cache included. After the
    call the heap has the same objects with all other fields unchanged,
    every object that is not in [this.regexps] is as it was, and what
    the call returns does not depend on the [lastIndex] it found. The
    pending candidates and the offsets are values of the call: they are
    no part of the heap. *)
Theorem C4_scan_writes_lastIndex_only this string sp h :
  let h' := (findNextMatchSync this string sp h).1 in
  length h' = length h /\
  (forall l R, h !! l = Some R ->
     exists v, h' !! l = Some (set_lastIndex v R)) /\
  (forall l, Some l ∉ regexps this -> h' !! l = h !! l) /\
  (forall h0, sameMatchers h0 h ->
     (findNextMatchSync this string sp h).2 = (findNextMatchSync this string sp h0).2).
Proof.
  intros h'. destruct (findNextMatchSync_frame this string sp h) as [Hsame Hother].
  fold h' in Hsame, Hother. split_and!.
  - symmetry. eapply Forall2_length. exact Hsame.
  - intros l R HR. destruct (sameMatchers_lookup _ _ _ _ Hsame HR) as (R' & HR' & HRR).
    exists (lastIndex R'). rewrite HR'. f_equal. exact HRR.
  - exact Hother.
  - intros h0 Hsim. apply findNextMatchSync_history. exact Hsim.
Qed.

(** C5: once the cache has a slot for the pattern [p], the callback of
    the constructor on [p] leaves the store as it is (no call of
    [regexConstructor], no write to the cache) and gives the compiled
    expression of the slot, or its recorded failure; through two further
    constructions over any pattern lists the slot stays the same, [p] is
    not among the patterns compiled, and wherever [p] stands in the two
    lists both scanners hold the expression of the slot. *)
Theorem C5_cached_pattern_not_recompiled rc p entry st f1 ps1 f2 ps2 :
  cache st !! p = Some entry ->
  let out1 := newJavaScriptScanner ps1 f1 rc st in
  let out2 := newJavaScriptScanner ps2 f2 rc out1.1 in
  (forall f idx anchors, exists anchors',
      compilePattern rc f p idx st anchors
      = (st, anchors',
         match entry with
         | CachedRegExp l => Normal (Some l)
         | CachedError e => if f then Normal None else Throw e
         end)) /\
  cache out1.1 !! p = Some entry /\
  cache out2.1 !! p = Some entry /\
  (exists calls, compiled out2.1 = calls ++ compiled st /\ p ∉ calls) /\
  (forall this1 this2 k1 k2,
      out1.2 = Normal this1 -> out2.2 = Normal this2 ->
      ps1 !! k1 = Some p -> ps2 !! k2 = Some p ->
      regexps this1 !! k1 = Some (slotOf entry) /\
      regexps this2 !! k2 = Some (slotOf entry)).
Proof.
  intros Hp out1 out2.
  destruct (newJavaScriptScanner_store rc f1 ps1 st)
    as (Hmono1 & (calls1 & Hcalls1 & Hnone1) & _ & _ & Hslots1 & _).
  fold out1 in Hmono1, Hcalls1, Hslots1.
  destruct (newJavaScriptScanner_store rc f2 ps2 out1.1)
    as (Hmono2 & (calls2 & Hcalls2 & Hnone2) & _ & _ & Hslots2 & _).
  fold out2 in Hmono2, Hcalls2, Hslots2.
  pose proof (Hmono1 _ _ Hp) as Hp1. pose proof (Hmono2 _ _ Hp1) as Hp2.
  split_and!.
  - intros f idx anchors.
    destruct (compilePattern_cases rc f p idx st anchors)
      as (a & [(entry' & Hc & Heq) | [(regex & Hc & _) | (e & Hc & _)]]);
      try congruence.
    exists a. rewrite Heq. rewrite Hp in Hc. injection Hc as <-. reflexivity.
  - exact Hp1.
  - exact Hp2.
  - exists (calls2 ++ calls1). split.
    + rewrite Hcalls2, Hcalls1, app_assoc. reflexivity.
    + intros Hin. apply elem_of_app in Hin as [Hin | Hin].
      * apply Hnone2 in Hin. congruence.
      * apply Hnone1 in Hin. congruence.
  - intros this1 this2 k1 k2 H1 H2 Hk1 Hk2.
    destruct (Hslots1 this1 H1) as (_ & _ & _ & Hs1).
    destruct (Hslots2 this2 H2) as (_ & _ & _ & Hs2).
    destruct (Hs1 k1 p Hk1) as (e1 & Hc1 & Hr1 & _).
    destruct (Hs2 k2 p Hk2) as (e2 & Hc2 & Hr2 & _).
    rewrite Hp1 in Hc1. injection Hc1 as <-.
    rewrite Hp2 in Hc2. injection Hc2 as <-.
    auto.
Qed.

Lemma C5_cached_pattern_not_recompiled_witness :
  cache (newJavaScriptScanner ["a"; "b"] false exampleConstructor storeWithB).1 !! "b"
  = Some (CachedRegExp 0).
Proof.
  apply (C5_cached_pattern_not_recompiled exampleConstructor "b" (CachedRegExp 0)
           storeWithB false ["a"; "b"] true ["b"; "(("]).
  vm_compute. reflexivity.
Defined.

(** C6: in non-forgiving mode, when some pattern of the list fails to
    compile (its failure is recorded in the cache, or it has no slot and
    [regexConstructor] throws on it), the construction throws, and no
    scanner is built: it throws the compilation error of the first such
    pattern of the list, which is then the failure recorded for it. *)
Theorem C6_construction_fails rc ps st p0 e0 :
  p0 ∈ ps ->
  failsToCompile rc (cache st) p0 e0 ->
  exists pre p suf e,
    ps = pre ++ p :: suf /\
    (forall q e', q ∈ pre -> ~ failsToCompile rc (cache st) q e') /\
    failsToCompile rc (cache st) p e /\
    (newJavaScriptScanner ps false rc st).2 = Throw e /\
    cache (newJavaScriptScanner ps false rc st).1 !! p = Some (CachedError e).
Proof.
  intros Hin Hfail.
  destruct (mapPatterns_first_failure rc ps 0 st (replicate (length ps) false) p0 e0 Hin Hfail)
    as (pre & p & suf & e & Hps & Hpre & Hp & Hres & Hrec).
  exists pre, p, suf, e. split_and!; try assumption.
  - unfold newJavaScriptScanner.
    destruct (mapPatterns rc false ps 0 st (replicate (length ps) false))
      as [[st' anchors'] [rs|e']]; simpl in *; congruence.
  - unfold newJavaScriptScanner.
    destruct (mapPatterns rc false ps 0 st (replicate (length ps) false))
      as [[st' anchors'] [rs|e']]; simpl in *; congruence.
Qed.

Lemma C6_construction_fails_witness :
  exists pre p suf e,
    ["a"; "(("; "b"] = pre ++ p :: suf /\
    (forall q e', q ∈ pre -> ~ failsToCompile exampleConstructor (cache emptyStore) q e') /\
    failsToCompile exampleConstructor (cache emptyStore) p e /\
    (newJavaScriptScanner ["a"; "(("; "b"] false exampleConstructor emptyStore).2 = Throw e /\
    cache (newJavaScriptScanner ["a"; "(("; "b"] false exampleConstructor emptyStore).1 !! p
    = Some (CachedError e).
Proof.
  apply (C6_construction_fails exampleConstructor ["a"; "(("; "b"] emptyStore
           "((" (mkError "Invalid regular expression: ((")).
  - apply list_elem_of_In. simpl. auto.
  - right. split; reflexivity.
Defined.

(** C7: in forgiving mode the construction never throws; a pattern that
    fails to compile has [null] in [this.regexps]; the loop of a scan
    passes over a [null] slot with the heap and the pending candidates
    as they are; no result of a scan names such a pattern; and when every
    pattern of the list fails to compile, every scan returns [null] and
    leaves the heap as it is. *)
Theorem C7_forgiving_disables_pattern rc ps st :
  exists this,
    (newJavaScriptScanner ps true rc st).2 = Normal this /\
    forgiving this = true /\
    length (regexps this) = length ps /\
    (forall k p e, ps !! k = Some p -> failsToCompile rc (cache st) p e ->
                   regexps this !! k = Some None) /\
    (forall k str sp h pending,
        regexps this !! k = Some None ->
        forLoop this str sp (drop k (regexps this)) k h pending
        = forLoop this str sp (drop (S k) (regexps this)) (S k) h pending) /\
    (forall k string sp h h' r,
        regexps this !! k = Some None ->
        findNextMatchSync this string sp h = (h', Normal (Some r)) ->
        index r <> k) /\
    ((forall p, p ∈ ps -> exists e, failsToCompile rc (cache st) p e) ->
     forall string sp h, findNextMatchSync this string sp h = (h, Normal None)).
Proof.
  destruct (newJavaScriptScanner_store rc true ps st)
    as (_ & _ & _ & _ & Hslots & Hfail & Hforg).
  destruct (Hforg eq_refl) as [this Hthis].
  destruct (Hslots this Hthis) as (_ & Hf & Hlen & Hk).
  assert (Hnull : forall k p e, ps !! k = Some p -> failsToCompile rc (cache st) p e ->
                                regexps this !! k = Some None).
  { intros k p e Hp Hpe.
    destruct (Hk k p Hp) as (entry & Hc & Hr & _).
    destruct (Hfail p e Hpe) as [Hc' | [Hc' _]]; [|congruence].
    rewrite Hc in Hc'. injection Hc' as ->. exact Hr. }
  exists this. split_and!; try assumption.
  - intros k str sp h pending Hnone.
    rewrite (drop_S _ _ _ Hnone). apply forLoop_null.
  - intros k string sp h h' r Hnone Hfind Hidx.
    apply findNextMatchSync_provenance in Hfind as ([[i m] off] & Hcand & Hr).
    cbn [fst snd] in *.
    destruct (toResult_reported _ _ _ _ Hr) as [Hi _].
    destruct Hcand as (l & R & Hl & _). cbn [fst snd] in Hl. congruence.
  - intros Hall string sp h.
    rewrite findNextMatchSync_afterLoop, forLoop_all_null; [reflexivity|].
    apply Forall_lookup. intros k r Hr.
    assert (Hlt : (k < length ps)%nat).
    { rewrite <- Hlen. eapply lookup_lt_Some. exact Hr. }
    apply lookup_lt_is_Some in Hlt as [p Hp].
    destruct (Hall p) as [e He].
    { apply list_elem_of_lookup. eauto. }
    rewrite (Hnull k p e Hp He) in Hr. congruence.
Qed.

(** C8, as stated, fails in forgiving mode: nothing is recorded when a
    compiled expression throws during a scan. The expression of the
    scanner below throws on the buffer [!b], and the scan returns [null];
    the next scan, of [ab], runs the same expression again and returns
    its match. *)
Lemma C8_matcher_attempted_again :
  forgiving (pickyScanner true) = true /\
  (execWithAnchor false "!b" 0 (dgm "b" (pickyChar "b"))).2
    = Throw (mkError "unsupported input") /\
  (findNextMatchSync (pickyScanner true) (inl "!b") 0 pickyHeap).2 = Normal None /\
  (findNextMatchSync (pickyScanner true) (inl "ab") 0
     (findNextMatchSync (pickyScanner true) (inl "!b") 0 pickyHeap).1).2
    = Normal (Some {| index := 0;
                      captureIndices := [{| c_start := 1; c_length := 1; c_end := 2 |}] |}).
Proof. vm_compute. auto. Qed.

(** C8, amended: let the loop reach the pattern [length pre] (no earlier
    pattern returned or threw) and let one of the searches of its compiled
    expression throw [e]. In non-forgiving mode the scan call throws [e].
    In forgiving mode the call goes on with the next pattern, the pending
    candidates being as they were. In both modes nothing is recorded: any
    later scan returns what it would have returned without this call, so
    the expression is attempted again. *)
Theorem C8_scan_error_policy this str sp h pre l suf h1 pending R e :
  regexps this = pre ++ Some l :: suf ->
  forLoop this str sp pre 0 h [] = (h1, Normal (Completed pending)) ->
  h1 !! l = Some R ->
  let anchor := default false (contiguousAnchorSimulation this !! length pre) in
  (execWithAnchor anchor str sp R).2 = Throw e ->
  let h2 := <[l := (execWithAnchor anchor str sp R).1]> h1 in
  (forgiving this = false ->
   findNextMatchSync this (inl str) sp h = (h2, Throw e)) /\
  (forgiving this = true ->
   findNextMatchSync this (inl str) sp h
   = afterLoop (forLoop this str sp suf (S (length pre)) h2 pending)) /\
  (forall string' sp',
      (findNextMatchSync this string' sp' (findNextMatchSync this (inl str) sp h).1).2
      = (findNextMatchSync this string' sp' h).2).
Proof.
  intros Hre Hpre HR anchor Hthrow h2.
  assert (Hloop : forLoop this str sp (regexps this) 0 h []
                  = if forgiving this
                    then forLoop this str sp suf (S (length pre)) h2 pending
                    else (h2, Throw e)).
  { rewrite Hre, forLoop_app, Hpre, forLoop_regexp, HR. cbv zeta.
    change (0 + length pre)%nat with (length pre). fold anchor.
    rewrite (tryBlock_throw anchor (length pre) str sp R e Hthrow).
    reflexivity. }
  split_and!.
  - intros Hf. rewrite findNextMatchSync_afterLoop. simpl textOf.
    rewrite Hloop, Hf. reflexivity.
  - intros Hf. rewrite findNextMatchSync_afterLoop. simpl textOf.
    rewrite Hloop, Hf. reflexivity.
  - intros string' sp'. apply findNextMatchSync_history.
    apply findNextMatchSync_frame.
Qed.

Lemma C8_scan_error_policy_witness :
  findNextMatchSync (pickyScanner false) (inl "!b") 0 pickyHeap
    = (pickyHeap, Throw (mkError "unsupported input")) /\
  findNextMatchSync (pickyScanner true) (inl "!b") 0 pickyHeap
    = (pickyHeap, Normal None).
Proof.
  split.
  - apply (C8_scan_error_policy (pickyScanner false) "!b" 0 pickyHeap [] 0%nat []
             pickyHeap [] (dgm "b" (pickyChar "b"))
             (mkError "unsupported input")); reflexivity.
  - apply (C8_scan_error_policy (pickyScanner true) "!b" 0 pickyHeap [] 0%nat []
             pickyHeap [] (dgm "b" (pickyChar "b"))
             (mkError "unsupported input")); reflexivity.
Defined.

(** C9: in every result of a scan the capture groups of the match are
    reported one by one: a group that did not participate as
    [{start: MAX, end: MAX, length: 0}] with [MAX = 4294967295 = 2^32 - 1],
    a participating group with its start and end in the buffer (the
    offsets of the match plus the correction of the anchor retry) and
    [length = end - start]. *)
Theorem C9_capture_translation this string sp h h' r :
  findNextMatchSync this string sp h = (h', Normal (Some r)) ->
  MAX = 2 ^ 32 - 1 /\
  exists m offset indices,
    candidate this (textOf string) sp h (index r, m, offset) /\
    m_indices m = Some indices /\
    Forall2 (reported offset) indices (captureIndices r).
Proof.
  intros Hfind. split; [reflexivity|].
  apply findNextMatchSync_provenance in Hfind as ([[i m] off] & Hcand & Hr).
  cbn [fst snd] in Hr.
  destruct (toResult_reported _ _ _ _ Hr) as (Hidx & indices & Hind & _ & Hrep).
  exists m, off, indices. rewrite Hidx. auto.
Qed.

Lemma C9_capture_translation_witness :
  MAX = 2 ^ 32 - 1 /\
  exists m offset indices,
    candidate groupsScanner "xb" 0 groupsHeap (0%nat, m, offset) /\
    m_indices m = Some indices /\
    Forall2 (reported offset) indices
      [{| c_start := 1; c_length := 1; c_end := 2 |};
       {| c_start := MAX; c_length := 0; c_end := MAX |};
       {| c_start := 1; c_length := 1; c_end := 2 |}].
Proof.
  exact (C9_capture_translation groupsScanner (inl "xb") 0 groupsHeap _ _ eq_refl).
Defined.

(** C10: a scan of the raw string [s] and a scan of [createString(s)]
    are the same call, with the same result and the same effect on the
    heap; of a wrapper the scanner reads the content only. *)
Theorem C10_createString_interchangeable this (s : string) sp h :
  findNextMatchSync this (inr (createString s)) sp h
  = findNextMatchSync this (inl s) sp h /\
  forall wrapped : RegexEngineString,
    findNextMatchSync this (inr wrapped) sp h
    = findNextMatchSync this (inl (content wrapped)) sp h.
Proof.
  split.
  - unfold createString. reflexivity.
  - intros [text]. reflexivity.
Qed.

(** * Further properties of the constructor *)

Lemma compilePattern_result rc f p idx st anchors st' anchors' res :
  compilePattern rc f p idx st anchors = (st', anchors', res) ->
  exists entry,
    cache st' !! p = Some entry /\
    res = match entry with
          | CachedRegExp l => Normal (Some l)
          | CachedError e => if f then Normal None else Throw e
          end.
Proof.
  intros Hcp.
  destruct (compilePattern_cases rc f p idx st anchors)
    as (a & [(entry & Hc & Heq) | [(regex & Hc & Hrc & Heq) | (e & Hc & Hrc & Heq)]]);
    rewrite Heq in Hcp; injection Hcp as <- <- <-.
  - exists entry. auto.
  - exists (CachedRegExp (length (heap st))). simpl. rewrite lookup_insert_eq. auto.
  - exists (CachedError e). simpl. rewrite lookup_insert_eq. auto.
Qed.

(** X1: a constructed scanner keeps the pattern list and the mode it was
    given, has one matcher slot and one anchor flag per pattern, and the
    flag of a pattern is set exactly when its text starts with [(^|\G)]
    or with [(\G|^)]. *)
Theorem newJavaScriptScanner_shape rc f ps st this :
  (newJavaScriptScanner ps f rc st).2 = Normal this ->
  patterns this = ps /\
  forgiving this = f /\
  length (regexps this) = length (patterns this) /\
  length (contiguousAnchorSimulation this) = length (patterns this) /\
  forall k p, ps !! k = Some p ->
    contiguousAnchorSimulation this !! k
    = Some (startsWith p "(^|\G)" || startsWith p "(\G|^)").
Proof.
  intros Hthis.
  pose proof (newJavaScriptScanner_anchors rc f ps st this Hthis) as Hanchors.
  destruct (newJavaScriptScanner_store rc f ps st) as (_ & _ & _ & _ & Hslots & _).
  destruct (Hslots this Hthis) as (Hps & Hf & Hlen & _).
  split_and!; try assumption.
  - congruence.
  - rewrite Hanchors, length_map. congruence.
  - intros k p Hk. rewrite Hanchors, list_lookup_fmap, Hk. reflexivity.
Qed.

Lemma newJavaScriptScanner_shape_witness :
  patterns flagsScanner = flagsPatterns /\
  forgiving flagsScanner = true /\
  length (regexps flagsScanner) = length (patterns flagsScanner) /\
  length (contiguousAnchorSimulation flagsScanner) = length (patterns flagsScanner) /\
  forall k p, flagsPatterns !! k = Some p ->
    contiguousAnchorSimulation flagsScanner !! k
    = Some (startsWith p "(^|\G)" || startsWith p "(\G|^)").
Proof.
  apply (newJavaScriptScanner_shape exampleConstructor true flagsPatterns emptyStore).
  vm_compute. reflexivity.
Defined.

(** The patterns the traversal compiles: each once, each a pattern of the
    list that had no slot; and when the traversal does not throw, all of
    those. *)
Lemma mapPatterns_compiled_once rc f ps :
  forall idx st anchors st' anchors' res,
    mapPatterns rc f ps idx st anchors = (st', anchors', res) ->
    exists calls,
      compiled st' = calls ++ compiled st /\
      NoDup calls /\
      (forall q, q ∈ calls -> q ∈ ps /\ cache st !! q = None) /\
      (forall q, q ∈ calls -> is_Some (cache st' !! q)) /\
      (forall rs, res = Normal rs ->
         forall q, q ∈ ps -> cache st !! q = None -> q ∈ calls).
Proof.
  induction ps as [|p ps IH]; intros idx st anchors st' anchors' res.
  - rewrite mapPatterns_nil. intros [= <- <- <-]. exists []. split_and!.
    + reflexivity.
    + constructor.
    + intros q Hq. inversion Hq.
    + intros q Hq. inversion Hq.
    + intros rs _ q Hq. inversion Hq.
  - rewrite mapPatterns_cons.
    destruct (compilePattern rc f p idx st anchors) as [[st1 anchors1] res1] eqn:Hcp.
    pose proof (compilePattern_store _ _ _ _ _ _ _ _ _ Hcp)
      as (Hother & Hsame & Hcalls & _ & _ & _ & _ & _).
    destruct (compilePattern_result _ _ _ _ _ _ _ _ _ Hcp) as (entry1 & Hentry1 & _).
    assert (Hstep : exists calls1,
               compiled st1 = calls1 ++ compiled st /\
               (calls1 = [] /\ is_Some (cache st !! p) \/
                calls1 = [p] /\ cache st !! p = None)).
    { destruct (cache st !! p) as [entry|] eqn:Hc.
      - exists []. rewrite (Hsame _ eq_refl). split; [reflexivity | left; eauto].
      - exists [p]. split; [apply Hcalls; reflexivity | right; auto]. }
    destruct Hstep as (calls1 & Hcalls1 & Hcase).
    assert (Hmono : forall st2, (forall q entry, cache st1 !! q = Some entry ->
                                                cache st2 !! q = Some entry) ->
                                forall q, q ∈ calls1 -> is_Some (cache st2 !! q)).
    { intros st2 Hm q Hq. destruct Hcase as [[-> _] | [-> _]]; [inversion Hq|].
      apply list_elem_of_singleton in Hq as ->. eauto. }
    destruct res1 as [r|e].
    + destruct (mapPatterns rc f ps (S idx) st1 anchors1) as [[st2 anchors2] res2] eqn:Hmp.
      destruct (IH _ _ _ _ _ _ Hmp) as (calls2 & Hcalls2 & Hnodup2 & Hin2 & Hsome2 & Hall2).
      destruct (mapPatterns_store _ _ _ _ _ _ _ _ _ Hmp) as (Hmono2 & _).
      intros Heq.
      assert (Heq' : st' = st2 /\ (forall rs, res = Normal rs -> exists rs2, res2 = Normal rs2)).
      { destruct res2; injection Heq as <- <- <-; split; eauto; discriminate. }
      clear Heq. destruct Heq' as [-> Hres].
      exists (calls2 ++ calls1). split_and!.
      * rewrite Hcalls2, Hcalls1, app_assoc. reflexivity.
      * apply NoDup_app. split_and!; [exact Hnodup2 | | ].
        -- intros q Hq2 Hq1. destruct (Hin2 q Hq2) as [_ Hnone].
           destruct Hcase as [[-> _] | [-> _]]; [inversion Hq1|].
           apply list_elem_of_singleton in Hq1 as ->. congruence.
        -- destruct Hcase as [[-> _] | [-> _]]; [constructor|].
           apply NoDup_singleton.
      * intros q Hq. apply elem_of_app in Hq as [Hq | Hq].
        -- destruct (Hin2 q Hq) as [Hps Hnone]. split; [right; exact Hps|].
           destruct (decide (q = p)) as [->|Hne]; [congruence|].
           rewrite <- Hother by exact Hne. exact Hnone.
        -- destruct Hcase as [[-> _] | [-> Hnone]]; [inversion Hq|].
           apply list_elem_of_singleton in Hq as ->. split; [left | exact Hnone].
      * intros q Hq. apply elem_of_app in Hq as [Hq | Hq]; [apply Hsome2; exact Hq|].
        apply (Hmono st2 Hmono2 q Hq).
      * intros rs Hrs q Hq Hnone. destruct (Hres rs Hrs) as [rs2 Hrs2].
        apply elem_of_app. apply elem_of_cons in Hq as [-> | Hq].
        -- right. destruct Hcase as [[_ [x Hx]] | [-> _]]; [congruence | left].
        -- destruct (decide (q = p)) as [->|Hne].
           ++ right. destruct Hcase as [[_ [x Hx]] | [-> _]]; [congruence | left].
           ++ left. apply (Hall2 rs2 Hrs2 q Hq). rewrite Hother by exact Hne. exact Hnone.
    + intros [= <- <- <-]. exists calls1. split_and!.
      * exact Hcalls1.
      * destruct Hcase as [[-> _] | [-> _]]; [constructor | apply NoDup_singleton].
      * intros q Hq. destruct Hcase as [[-> _] | [-> Hnone]]; [inversion Hq|].
        apply list_elem_of_singleton in Hq as ->. split; [left | exact Hnone].
      * apply Hmono. auto.
      * discriminate.
Qed.

(** X2: during one construction [regexConstructor] is called at most
    once on a pattern string, only on patterns of the list that had no
    slot in the cache, and every pattern it was called on has a slot
    afterwards; when the construction succeeds it was called on every
    pattern of the list that had no slot. *)
Theorem newJavaScriptScanner_compiles_once rc f ps st :
  exists calls,
    compiled (newJavaScriptScanner ps f rc st).1 = calls ++ compiled st /\
    NoDup calls /\
    (forall q, q ∈ calls -> q ∈ ps /\ cache st !! q = None) /\
    (forall q, q ∈ calls -> is_Some (cache (newJavaScriptScanner ps f rc st).1 !! q)) /\
    (forall this, (newJavaScriptScanner ps f rc st).2 = Normal this ->
       forall q, q ∈ ps -> cache st !! q = None -> q ∈ calls).
Proof.
  unfold newJavaScriptScanner.
  destruct (mapPatterns rc f ps 0 st (replicate (length ps) false))
    as [[st' anchors'] res] eqn:Hmp.
  destruct (mapPatterns_compiled_once _ _ _ _ _ _ _ _ _ Hmp)
    as (calls & Hcalls & Hnodup & Hin & Hsome & Hall).
  exists calls. destruct res as [rs|e]; cbn [fst snd]; split_and!; try assumption.
  - intros this _. apply (Hall rs eq_refl).
  - discriminate.
Qed.

Lemma compilePattern_cached rc f p idx st anchors entry :
  cache st !! p = Some entry ->
  compilePattern rc f p idx st anchors
  = (st, (if isContiguousAnchor p then <[idx := true]> anchors else anchors),
     match entry with
     | CachedRegExp l => Normal (Some l)
     | CachedError e => if f then Normal None else Throw e
     end).
Proof. unfold compilePattern. intros ->. destruct entry; reflexivity. Qed.

(** The traversal run again on the store it left does the same and
    leaves the store as it is. *)
Lemma mapPatterns_replay rc f ps :
  forall idx st anchors st' anchors' res,
    mapPatterns rc f ps idx st anchors = (st', anchors', res) ->
    mapPatterns rc f ps idx st' anchors = (st', anchors', res).
Proof.
  induction ps as [|p ps IH]; intros idx st anchors st' anchors' res.
  - rewrite !mapPatterns_nil. intros [= <- <- <-]. reflexivity.
  - rewrite !mapPatterns_cons.
    destruct (compilePattern rc f p idx st anchors) as [[st1 anchors1] res1] eqn:Hcp.
    destruct (compilePattern_result _ _ _ _ _ _ _ _ _ Hcp) as (entry & Hentry & Hres1).
    pose proof (compilePattern_anchors _ _ _ _ _ _ _ _ _ Hcp) as Hanchors1.
    destruct res1 as [r|e].
    + destruct (mapPatterns rc f ps (S idx) st1 anchors1) as [[st2 anchors2] res2] eqn:Hmp.
      destruct (mapPatterns_store _ _ _ _ _ _ _ _ _ Hmp) as (Hmono2 & _).
      pose proof (IH _ _ _ _ _ _ Hmp) as Hreplay.
      intros Heq.
      assert (Hst : st' = st2) by (destruct res2; injection Heq as <- <- <-; reflexivity).
      subst st'.
      rewrite (compilePattern_cached rc f p idx st2 anchors entry (Hmono2 _ _ Hentry)).
      rewrite <- Hanchors1, <- Hres1, Hreplay. exact Heq.
    + intros [= <- <- <-].
      rewrite (compilePattern_cached rc f p idx st1 anchors entry Hentry).
      rewrite <- Hanchors1, <- Hres1. reflexivity.
Qed.

(** X3: constructing the same scanner again on the store the first
    construction left is a no-op on the store (no call of
    [regexConstructor], no write to the cache, no new object) and ends
    the same way: with an equal scanner, or by throwing the same error. *)
Theorem newJavaScriptScanner_again rc f ps st :
  newJavaScriptScanner ps f rc (newJavaScriptScanner ps f rc st).1
  = newJavaScriptScanner ps f rc st.
Proof.
  unfold newJavaScriptScanner.
  destruct (mapPatterns rc f ps 0 st (replicate (length ps) false))
    as [[st' anchors'] res] eqn:Hmp.
  apply mapPatterns_replay in Hmp.
  destruct res as [rs|e]; cbn [fst]; rewrite Hmp; reflexivity.
Qed.

Lemma mapPatterns_others rc f ps :
  forall idx st anchors st' anchors' res,
    mapPatterns rc f ps idx st anchors = (st', anchors', res) ->
    forall q, q ∉ ps -> cache st' !! q = cache st !! q.
Proof.
  induction ps as [|p ps IH]; intros idx st anchors st' anchors' res.
  - rewrite mapPatterns_nil. intros [= <- <- <-]. reflexivity.
  - rewrite mapPatterns_cons.
    destruct (compilePattern rc f p idx st anchors) as [[st1 anchors1] res1] eqn:Hcp.
    pose proof (compilePattern_store _ _ _ _ _ _ _ _ _ Hcp) as (Hother & _).
    assert (Hq : forall q, q ∉ p :: ps -> q <> p /\ q ∉ ps).
    { intros q Hq. split; [intros -> | intros Hin]; apply Hq; [left | right; exact Hin]. }
    destruct res1 as [r|e].
    + destruct (mapPatterns rc f ps (S idx) st1 anchors1) as [[st2 anchors2] res2] eqn:Hmp.
      intros Heq q Hnin. destruct (Hq q Hnin) as [Hne Hnin'].
      assert (Hst : st' = st2) by (destruct res2; injection Heq as <- <- <-; reflexivity).
      subst st'. rewrite (IH _ _ _ _ _ _ Hmp q Hnin'). apply Hother. exact Hne.
    + intros [= <- <- <-] q Hnin. apply Hother. apply Hq. exact Hnin.
Qed.

(** X5: a construction leaves every compiled object that exists as it is,
    [lastIndex] included, and leaves the slot of every pattern that is
    not in its list as it is, present or absent. *)
Theorem newJavaScriptScanner_leaves_others rc f ps st :
  (forall l R, heap st !! l = Some R ->
               heap (newJavaScriptScanner ps f rc st).1 !! l = Some R) /\
  (forall q, q ∉ ps ->
             cache (newJavaScriptScanner ps f rc st).1 !! q = cache st !! q).
Proof.
  unfold newJavaScriptScanner.
  destruct (mapPatterns rc f ps 0 st (replicate (length ps) false))
    as [[st' anchors'] res] eqn:Hmp.
  destruct (mapPatterns_store _ _ _ _ _ _ _ _ _ Hmp) as (_ & _ & (new & Hheap) & _).
  pose proof (mapPatterns_others _ _ _ _ _ _ _ _ _ Hmp) as Hothers.
  destruct res as [rs|e]; cbn [fst]; (split; [|exact Hothers]);
    intros l R Hl; rewrite Hheap; apply lookup_app_l_Some; exact Hl.
Qed.

Lemma compilePattern_faithful rc f p idx st anchors st' anchors' res :
  compilePattern rc f p idx st anchors = (st', anchors', res) ->
  cacheFaithful rc st -> cacheFaithful rc st'.
Proof.
  intros Hcp Hfaith.
  destruct (compilePattern_cases rc f p idx st anchors)
    as (a & [(entry & Hc & Heq) | [(regex & Hc & Hrc & Heq) | (e & Hc & Hrc & Heq)]]);
    rewrite Heq in Hcp; injection Hcp as <- <- <-.
  - exact Hfaith.
  - intros q entry. simpl. destruct (decide (p = q)) as [->|Hne].
    + rewrite lookup_insert_eq. intros [= <-].
      exists regex, regex. split_and!; [exact Hrc | | apply sameMatcher_refl].
      rewrite lookup_app_r by lia. rewrite Nat.sub_diag. reflexivity.
    + rewrite lookup_insert_ne by exact Hne. intros Hq.
      specialize (Hfaith q entry Hq). destruct entry as [l|e]; [|exact Hfaith].
      destruct Hfaith as (R0 & R & HR0 & HR & HRR).
      exists R0, R. split_and!; try assumption. apply lookup_app_l_Some. exact HR.
  - intros q entry. simpl. destruct (decide (p = q)) as [->|Hne].
    + rewrite lookup_insert_eq. intros [= <-]. exact Hrc.
    + rewrite lookup_insert_ne by exact Hne. apply Hfaith.
Qed.

Lemma mapPatterns_faithful rc f ps :
  forall idx st anchors st' anchors' res,
    mapPatterns rc f ps idx st anchors = (st', anchors', res) ->
    cacheFaithful rc st -> cacheFaithful rc st'.
Proof.
  induction ps as [|p ps IH]; intros idx st anchors st' anchors' res.
  - rewrite mapPatterns_nil. intros [= <- <- <-]. auto.
  - rewrite mapPatterns_cons.
    destruct (compilePattern rc f p idx st anchors) as [[st1 anchors1] res1] eqn:Hcp.
    pose proof (compilePattern_faithful _ _ _ _ _ _ _ _ _ Hcp) as Hstep.
    destruct res1 as [r|e].
    + destruct (mapPatterns rc f ps (S idx) st1 anchors1) as [[st2 anchors2] res2] eqn:Hmp.
      intros Heq Hfaith.
      assert (Hst : st' = st2) by (destruct res2; injection Heq as <- <- <-; reflexivity).
      subst st'. eapply IH; eauto.
    + intros [= <- <- <-]. exact Hstep.
Qed.

(** X4: on a store whose cache agrees with [regexConstructor] (the empty
    store is one), the cache agrees with it after a construction too, and
    also after a scan; in the scanner built, the matcher of the pattern
    at index [k] is, up to [lastIndex], the object [regexConstructor]
    gives for that pattern, and [null] stands for a pattern that
    [regexConstructor] rejects, in forgiving mode. *)
Theorem newJavaScriptScanner_faithful rc f ps st :
  cacheFaithful rc st ->
  let out := newJavaScriptScanner ps f rc st in
  cacheFaithful rc out.1 /\
  (forall this' string sp,
      cacheFaithful rc {| heap := (findNextMatchSync this' string sp (heap out.1)).1;
                          cache := cache out.1;
                          compiled := compiled out.1 |}) /\
  (forall this k p,
      out.2 = Normal this -> ps !! k = Some p ->
      match regexps this !! k with
      | Some (Some l) =>
          exists R0 R, rc p = Normal R0 /\ heap out.1 !! l = Some R /\ sameMatcher R0 R
      | Some None => f = true /\ exists e, rc p = Throw e
      | None => False
      end).
Proof.
  intros Hfaith out.
  assert (Hout : cacheFaithful rc out.1).
  { subst out. unfold newJavaScriptScanner.
    destruct (mapPatterns rc f ps 0 st (replicate (length ps) false))
      as [[st' anchors'] res] eqn:Hmp.
    pose proof (mapPatterns_faithful _ _ _ _ _ _ _ _ _ Hmp Hfaith).
    destruct res; assumption. }
  split_and!.
  - exact Hout.
  - intros this' string sp q entry Hq. simpl in Hq.
    specialize (Hout q entry Hq). destruct entry as [l|e]; [|exact Hout].
    destruct Hout as (R0 & R & HR0 & HR & HRR).
    destruct (findNextMatchSync_frame this' string sp (heap out.1)) as [Hsame _].
    destruct (sameMatchers_lookup _ _ _ _ Hsame HR) as (R' & HR' & HRR').
    exists R0, R'. simpl. split_and!; try assumption.
    eapply sameMatcher_trans; eassumption.
  - intros this k p Hthis Hk.
    destruct (newJavaScriptScanner_store rc f ps st) as (_ & _ & _ & _ & Hslots & _).
    fold out in Hslots.
    destruct (Hslots this Hthis) as (_ & _ & _ & Hslot).
    destruct (Hslot k p Hk) as (entry & Hc & -> & Hnf).
    specialize (Hout p entry Hc). destruct entry as [l|e]; simpl.
    + exact Hout.
    + split; [|eauto]. destruct f; [reflexivity|].
      destruct (Hnf eq_refl) as [l Hl]. discriminate.
Qed.

Lemma newJavaScriptScanner_faithful_witness :
  match regexps flagsScanner !! 1%nat with
  | Some (Some l) =>
      exists R0 R,
        exampleConstructor "(^|\G)b" = Normal R0 /\
        heap (newJavaScriptScanner flagsPatterns true exampleConstructor emptyStore).1 !! l
        = Some R /\
        sameMatcher R0 R
  | Some None => true = true /\ exists e, exampleConstructor "(^|\G)b" = Throw e
  | None => False
  end.
Proof.
  apply (newJavaScriptScanner_faithful exampleConstructor true flagsPatterns emptyStore).
  - intros q entry Hq. simpl in Hq. rewrite lookup_empty in Hq. discriminate.
  - vm_compute. reflexivity.
  - reflexivity.
Defined.

(** * Further properties of a scan *)

Lemma iteration_searchAt this str sp h j :
  iteration this str sp h j
  = match searchAt this str sp h j with
    | None => None
    | Some (Throw e) => Some (Throw e)
    | Some (Normal None) => Some (Normal TryContinue)
    | Some (Normal (Some (m, offset))) =>
        Some (if m_index m =? sp
              then match toResult j m offset with
                   | Normal r => Normal (TryReturn r)
                   | Throw e => Throw e
                   end
              else Normal (TryPush (j, m, offset)))
    end.
Proof.
  unfold iteration, searchAt.
  destruct (regexps this !! j) as [[l|]|]; try reflexivity.
  destruct (h !! l) as [R|]; [|reflexivity].
  unfold tryBlock.
  destruct (execWithAnchor _ str sp R) as [R' [[[m off]|]|e]]; simpl; try reflexivity.
  destruct (m_index m =? sp); [|reflexivity].
  destruct (toResult j m off); reflexivity.
Qed.

Lemma candidate_searchAt this str sp h j m offset :
  candidate this str sp h (j, m, offset)
  <-> searchAt this str sp h j = Some (Normal (Some (m, offset))).
Proof.
  unfold candidate, searchAt. cbn [fst snd]. split.
  - intros (l & R & -> & -> & ->). reflexivity.
  - destruct (regexps this !! j) as [[l|]|] eqn:Hl; try discriminate.
    destruct (h !! l) as [R|] eqn:HR; [|discriminate].
    intros [= Heq]. exists l, R. split_and!; [reflexivity | exact HR | exact Heq].
Qed.

(** The iterations below [n] all pass, or there is a first one that does
    not. *)
Lemma first_not_passing this str sp h n :
  (forall j, (j < n)%nat -> passes (forgiving this) (iteration this str sp h j)) \/
  exists i, (i < n)%nat /\
            ~ passes (forgiving this) (iteration this str sp h i) /\
            forall j, (j < i)%nat -> passes (forgiving this) (iteration this str sp h j).
Proof.
  induction n as [|n [IH | (i & Hi & Hnot & Hbelow)]].
  - left. intros j Hj. lia.
  - assert (Hdec : passes (forgiving this) (iteration this str sp h n) \/
                   ~ passes (forgiving this) (iteration this str sp h n)).
    { unfold passes. destruct (iteration this str sp h n) as [[[|r|entry]|e]|]; auto.
      destruct (forgiving this); auto. }
    destruct Hdec as [Hyes | Hno].
    + left. intros j Hj. destruct (decide (j = n)) as [->|Hne]; [exact Hyes|].
      apply IH. lia.
    + right. exists n. split_and!; [lia | exact Hno | exact IH].
  - right. exists i. split_and!; [lia | exact Hnot | exact Hbelow].
Qed.

(** In non-forgiving mode the first iteration that throws ends the scan
    with its error. *)
Lemma findNextMatchSync_throws this string sp h i e :
  forgiving this = false ->
  (forall j, (j < i)%nat ->
             passes (forgiving this) (iteration this (textOf string) sp h j)) ->
  iteration this (textOf string) sp h i = Some (Throw e) ->
  (findNextMatchSync this string sp h).2 = Throw e.
Proof.
  intros Hf Hpass Hi.
  assert (Hlt : (i < length (regexps this))%nat).
  { unfold iteration in Hi. destruct (regexps this !! i) eqn:Hl; [|discriminate].
    eapply lookup_lt_Some. exact Hl. }
  rewrite findNextMatchSync_afterLoop.
  rewrite <- (take_drop i (regexps this)) at 1. rewrite forLoop_app.
  destruct (forLoop_passes this (textOf string) sp h (take i (regexps this))
              (drop i (regexps this)) 0 h [])
    as (h1 & Hsim1 & Heq1).
  - rewrite drop_0. symmetry. apply take_drop.
  - apply sameMatchers_refl.
  - intros j Hj. apply Hpass. rewrite length_take in Hj. lia.
  - rewrite Heq1. rewrite length_take, Nat.min_l by lia. simpl Nat.add.
    unfold iteration in Hi.
    destruct (regexps this !! i) as [[l|]|] eqn:Hl; try discriminate.
    rewrite (drop_S _ _ _ Hl), forLoop_regexp.
    destruct (h !! l) as [R0|] eqn:HR0; [|discriminate].
    destruct (sameMatchers_lookup _ _ _ _ Hsim1 HR0) as (R & HR & HRR).
    rewrite HR. cbv zeta. rewrite (tryBlock_history _ i (textOf string) sp R0 R HRR).
    destruct (tryBlock _ i (textOf string) sp R0) as [R' c]. simpl in Hi.
    injection Hi as ->. rewrite Hf. reflexivity.
Qed.

(** How a scan ends, by the first iteration that does not pass. *)
Lemma findNextMatchSync_cases this string sp h :
  let str := textOf string in
  ((forall j, (j < length (regexps this))%nat ->
              passes (forgiving this) (iteration this str sp h j)) /\
   (findNextMatchSync this string sp h).2
   = closestPending (flat_map (fun j => pushed (iteration this str sp h j))
                       (seq 0 (length (regexps this))))) \/
  (exists i r,
      (forall j, (j < i)%nat -> passes (forgiving this) (iteration this str sp h j)) /\
      iteration this str sp h i = Some (Normal (TryReturn r)) /\
      (findNextMatchSync this string sp h).2 = Normal (Some r)) \/
  (exists i e,
      forgiving this = false /\
      (forall j, (j < i)%nat -> passes (forgiving this) (iteration this str sp h j)) /\
      iteration this str sp h i = Some (Throw e) /\
      (findNextMatchSync this string sp h).2 = Throw e).
Proof.
  intros str.
  destruct (first_not_passing this str sp h (length (regexps this)))
    as [Hall | (i & Hi & Hnot & Hbelow)].
  - left. split; [exact Hall|]. apply findNextMatchSync_closest. exact Hall.
  - right. unfold passes in Hnot.
    destruct (iteration this str sp h i) as [[[|r|entry]|e]|] eqn:Hit;
      try (exfalso; apply Hnot; exact I).
    + left. exists i, r. split_and!; [exact Hbelow | exact Hit |].
      eapply findNextMatchSync_immediate; eassumption.
    + right. exists i, e.
      assert (Hf : forgiving this = false) by (destruct (forgiving this); congruence).
      split_and!; [exact Hf | exact Hbelow | exact Hit |].
      eapply findNextMatchSync_throws; eassumption.
Qed.

Lemma pushed_elem this str sp h j entry :
  entry ∈ pushed (iteration this str sp h j) ->
  entry.1.1 = j /\
  searchAt this str sp h j = Some (Normal (Some (entry.1.2, entry.2))) /\
  m_index entry.1.2 <> sp.
Proof.
  rewrite iteration_searchAt.
  destruct (searchAt this str sp h j) as [[[[m off]|]|e]|]; simpl;
    try (intros H; inversion H; fail).
  destruct (m_index m =? sp) eqn:Hsp.
  - destruct (toResult j m off); simpl; intros H; inversion H.
  - simpl. intros H. apply list_elem_of_singleton in H as ->.
    apply Z.eqb_neq in Hsp. simpl. auto.
Qed.

Lemma elem_of_pending this str sp h n entry :
  entry ∈ flat_map (fun j => pushed (iteration this str sp h j)) (seq 0 n)
  <-> (entry.1.1 < n)%nat /\ entry ∈ pushed (iteration this str sp h entry.1.1).
Proof.
  rewrite list_elem_of_In, in_flat_map. split.
  - intros (j & Hj & Hin). apply list_elem_of_In in Hin.
    destruct (pushed_elem _ _ _ _ _ _ Hin) as [<- _].
    apply in_seq in Hj. split; [lia | exact Hin].
  - intros [Hlt Hin]. exists entry.1.1. split.
    + apply in_seq. lia.
    + apply list_elem_of_In. exact Hin.
Qed.

(** ** What [exec] finds *)

Lemma search_found matcher sticky str n :
  forall start i st,
    search matcher sticky str n start = Found i st ->
    start <= i < start + Z.of_nat n /\ matcher str i = Normal (Some st).
Proof.
  induction n as [|n IH]; intros start i st; simpl; [discriminate|].
  destruct (matcher str start) as [[st'|]|e] eqn:Hm; try discriminate.
  - intros [= <- <-]. split; [lia | exact Hm].
  - destruct sticky; [discriminate|]. intros H. apply IH in H. split; [lia | apply H].
Qed.

Lemma exec_match R str m :
  (exec R str).2 = Normal (Some m) ->
  (if re_global R || re_sticky R then ToLength (lastIndex R) else 0) <= m_index m
  /\ m_index m <= str_length str
  /\ exists st,
       re_matcher R str (m_index m) = Normal (Some st) /\
       m_indices m = if re_hasIndices R
                     then Some (Some (m_index m, endIndex st) :: captures st)
                     else None.
Proof.
  unfold exec.
  set (start := if re_global R || re_sticky R then ToLength (lastIndex R) else 0).
  destruct (search (re_matcher R) (re_sticky R) str
              (Z.to_nat (str_length str + 1 - start)) start) as [i st| |e] eqn:Hs;
    simpl; try discriminate.
  intros [= <-]. simpl.
  apply search_found in Hs as [Hrange Hm].
  split_and!; [lia | lia | exists st; auto].
Qed.

Lemma substring_length_le s :
  forall n m, (String.length (substring n m s) <= m)%nat.
Proof.
  induction s as [|c s IH]; intros [|n] [|m]; simpl; try lia.
  - specialize (IH 0%nat m). lia.
  - apply (IH n 0%nat).
  - apply (IH n (S m)).
Qed.

Lemma slice_length str sp :
  0 <= sp -> str_length (slice str sp) <= Z.max 0 (str_length str - sp).
Proof.
  intros Hsp. unfold slice, str_length.
  destruct (sp <? 0) eqn:Hneg; [apply Z.ltb_lt in Hneg; lia|].
  pose proof (substring_length_le str
                (Z.to_nat (Z.min sp (Z.of_nat (String.length str))))
                (Z.to_nat (Z.of_nat (String.length str)
                           - Z.min sp (Z.of_nat (String.length str))))).
  lia.
Qed.

(** A match of the two searches of an iteration: its [indices] start
    with the match itself, and with a [g] or [y] expression its place in
    the buffer is at or after [startPosition], and within the buffer or
    at [startPosition]. *)
Lemma execWithAnchor_match anchor str sp R m offset :
  (execWithAnchor anchor str sp R).2 = Normal (Some (m, offset)) ->
  (exists st,
      m_indices m = if re_hasIndices R
                    then Some (Some (m_index m, endIndex st) :: captures st)
                    else None) /\
  (re_global R || re_sticky R = true -> 0 <= sp <= 2 ^ 53 - 1 ->
   sp <= m_index m + offset <= Z.max sp (str_length str)).
Proof.
  unfold execWithAnchor.
  pose proof (exec_match (set_lastIndex sp R) str) as Hdirect.
  pose proof (exec_sameMatcher (set_lastIndex sp R) str) as HS.
  destruct (exec (set_lastIndex sp R) str) as [R1 [[m1|]|e]]; simpl in *; try discriminate.
  - intros [= <- <-].
    destruct (Hdirect m1 eq_refl) as (Hlo & Hhi & st & _ & Hind).
    split; [exists st; exact Hind|]. intros Hflags Hsp. rewrite Hflags in Hlo.
    unfold ToLength in Hlo. lia.
  - assert (HR1 : sameMatcher R R1).
    { eapply sameMatcher_trans; [apply sameMatcher_set | exact HS]. }
    destruct anchor; [|discriminate].
    pose proof (exec_match (set_lastIndex 0 R1) (slice str sp)) as Hretry.
    destruct (exec (set_lastIndex 0 R1) (slice str sp)) as [R2 [[m2|]|e]];
      simpl in *; try discriminate.
    intros [= <- <-].
    destruct (Hretry m2 eq_refl) as (Hlo & Hhi & st & _ & Hind).
    rewrite HR1 in Hlo, Hind. simpl in Hlo, Hind.
    split; [exists st; exact Hind|]. intros Hflags Hsp. rewrite Hflags in Hlo.
    unfold ToLength in Hlo. pose proof (slice_length str sp). lia.
Qed.

Lemma searchAt_match this str sp h j m offset :
  searchAt this str sp h j = Some (Normal (Some (m, offset))) ->
  exists l R,
    regexps this !! j = Some (Some l) /\ h !! l = Some R /\
    (exists st,
        m_indices m = if re_hasIndices R
                      then Some (Some (m_index m, endIndex st) :: captures st)
                      else None) /\
    (re_global R || re_sticky R = true -> 0 <= sp <= 2 ^ 53 - 1 ->
     sp <= m_index m + offset <= Z.max sp (str_length str)).
Proof.
  intros Hs. apply candidate_searchAt in Hs as (l & R & Hl & HR & Hexec).
  cbn [fst snd] in *. exists l, R. split_and!; try assumption;
    eapply execWithAnchor_match; exact Hexec.
Qed.

(** X7: with expressions that have the [g] or the [y] flag and a start
    position in [0 .. 2^53 - 1], the match a scan returns never starts
    before [startPosition]: group 0 of every result starts at or after
    [startPosition], and not after the end of the buffer, or at
    [startPosition] when that is beyond the end. *)
Theorem findNextMatchSync_start_bounds this string sp h h' r :
  0 <= sp <= 2 ^ 53 - 1 ->
  (forall l R, h !! l = Some R -> re_global R || re_sticky R = true) ->
  findNextMatchSync this string sp h = (h', Normal (Some r)) ->
  exists c rest,
    captureIndices r = c :: rest /\
    sp <= c_start c <= Z.max sp (str_length (textOf string)).
Proof.
  intros Hsp Hflags Hfind.
  apply findNextMatchSync_provenance in Hfind as ([[j m] off] & Hcand & Hr).
  cbn [fst snd] in Hr.
  apply candidate_searchAt in Hcand.
  destruct (searchAt_match _ _ _ _ _ _ _ Hcand) as (l & R & _ & HR & (st & Hind) & Hrange).
  specialize (Hrange (Hflags l R HR) Hsp).
  unfold toResult in Hr. rewrite Hind in Hr.
  destruct (re_hasIndices R); [|discriminate].
  injection Hr as <-. simpl.
  eexists _, _. split; [reflexivity|]. simpl. exact Hrange.
Qed.

Lemma findNextMatchSync_start_bounds_witness :
  exists c rest,
    [{| c_start := 2; c_length := 1; c_end := 3 |};
     {| c_start := MAX; c_length := 0; c_end := MAX |};
     {| c_start := 2; c_length := 1; c_end := 3 |}] = c :: rest /\
    2 <= c_start c <= Z.max 2 (str_length "xxb").
Proof.
  apply (findNextMatchSync_start_bounds anchorScanner (inl "xxb") 2 anchorHeap
           (findNextMatchSync anchorScanner (inl "xxb") 2 anchorHeap).1
           {| index := 0;
              captureIndices :=
                [{| c_start := 2; c_length := 1; c_end := 3 |};
                 {| c_start := MAX; c_length := 0; c_end := MAX |};
                 {| c_start := 2; c_length := 1; c_end := 3 |}] |}).
  - vm_compute. split; discriminate.
  - intros [|[|l]] R; simpl; [intros [= <-]; reflexivity | discriminate..].
  - vm_compute. reflexivity.
Defined.

(** ** Which candidate a scan returns *)







(** ** When a scan returns [null], and when it cannot throw *)

Lemma searchAt_indices this str sp h j m offset :
  (forall l R, h !! l = Some R -> re_hasIndices R = true) ->
  searchAt this str sp h j = Some (Normal (Some (m, offset))) ->
  exists indices, m_indices m = Some indices.
Proof.
  intros Hd Hs.
  destruct (searchAt_match _ _ _ _ _ _ _ Hs) as (l & R & _ & HR & (st & Hind) & _).
  rewrite (Hd l R HR) in Hind. eauto.
Qed.

Lemma closestPending_null pending :
  closestPending pending = Normal None -> pending = [].
Proof.
  intros H. destruct pending as [|entry pending]; [reflexivity|].
  destruct (closestPending_least_index (entry :: pending))
    as (pre & first & suf & _ & _ & _ & Heq); [discriminate|].
  rewrite H in Heq. destruct (toResult first.1.1 first.1.2 first.2); discriminate.
Qed.

(** X6: with expressions that have the [d] flag, and in forgiving mode
    or when no search throws, a scan returns [null] exactly when no
    pattern is found: neither from [startPosition] on nor, for an
    anchor-flagged pattern, in the rest of the string. In particular a
    scanner without patterns returns [null]. *)
Theorem findNextMatchSync_null_iff this string sp h :
  (forall l R, h !! l = Some R -> re_hasIndices R = true) ->
  (forgiving this = true \/
   forall j e, searchAt this (textOf string) sp h j <> Some (Throw e)) ->
  ((findNextMatchSync this string sp h).2 = Normal None
   <-> forall j m offset,
         searchAt this (textOf string) sp h j <> Some (Normal (Some (m, offset)))).
Proof.
  intros Hd Hthrow.
  set (str := textOf string) in *.
  pose proof (findNextMatchSync_cases this string sp h) as Hcases.
  cbv zeta in Hcases. fold str in Hcases.
  split.
  - intros Hnull j m off Hs.
    destruct (searchAt_indices _ _ _ _ _ _ _ Hd Hs) as [indices Hind].
    destruct Hcases as [[Hall Hres] | [(i & r & _ & _ & Hres) | (i & e & _ & _ & _ & Hres)]];
      try congruence.
    rewrite Hnull in Hres. symmetry in Hres. apply closestPending_null in Hres.
    assert (Hlt : (j < length (regexps this))%nat).
    { unfold searchAt in Hs. destruct (regexps this !! j) eqn:Hl; [|discriminate].
      eapply lookup_lt_Some. exact Hl. }
    specialize (Hall j Hlt).
    assert (Hin : (j, m, off) ∈ flat_map (fun j => pushed (iteration this str sp h j))
                                   (seq 0 (length (regexps this)))).
    { apply elem_of_pending. cbn [fst snd]. split; [exact Hlt|].
      rewrite iteration_searchAt, Hs in Hall |- *.
      destruct (m_index m =? sp).
      - unfold toResult in Hall. rewrite Hind in Hall. contradiction.
      - left. }
    rewrite Hres in Hin. inversion Hin.
  - intros Hnone.
    destruct Hcases as [[Hall Hres] | [(i & r & _ & Hit & _) | (i & e & Hf & _ & Hit & _)]].
    + rewrite Hres.
      destruct (flat_map (fun j => pushed (iteration this str sp h j))
                  (seq 0 (length (regexps this)))) as [|entry pending] eqn:Hp;
        [reflexivity|].
      assert (Hin : entry ∈ flat_map (fun j => pushed (iteration this str sp h j))
                              (seq 0 (length (regexps this)))).
      { rewrite Hp. left. }
      apply elem_of_pending in Hin as [_ Hin]. apply pushed_elem in Hin as (_ & Hs & _).
      exfalso. exact (Hnone _ _ _ Hs).
    + exfalso. rewrite iteration_searchAt in Hit.
      destruct (searchAt this str sp h i) as [[[[m off]|]|e]|] eqn:Hs; try discriminate.
      exact (Hnone _ _ _ Hs).
    + exfalso. rewrite iteration_searchAt in Hit.
      destruct (searchAt this str sp h i) as [[[[m off]|]|e']|] eqn:Hs; try discriminate.
      * exact (Hnone _ _ _ Hs).
      * destruct Hthrow as [Hforg | Hthrow]; [congruence|].
        exact (Hthrow i e' Hs).
Qed.

Lemma findNextMatchSync_null_iff_witness :
  (findNextMatchSync plainScanner (inl "xay") 0 plainHeap).2 = Normal None
  <-> forall j m offset,
        searchAt plainScanner "xay" 0 plainHeap j <> Some (Normal (Some (m, offset))).
Proof.
  apply (findNextMatchSync_null_iff plainScanner (inl "xay") 0 plainHeap).
  - intros [|[|l]] R; simpl; [intros [= <-]; reflexivity | discriminate..].
  - right. intros [|[|j]] e Hs; vm_compute in Hs; discriminate.
Defined.

(** X10: in forgiving mode, with expressions that have the [d] flag, a
    scan never throws: it returns a result or [null], whatever the
    compiled expressions throw. *)
Theorem findNextMatchSync_forgiving_total this string sp h :
  forgiving this = true ->
  (forall l R, h !! l = Some R -> re_hasIndices R = true) ->
  exists result, (findNextMatchSync this string sp h).2 = Normal result.
Proof.
  intros Hf Hd.
  set (str := textOf string) in *.
  pose proof (findNextMatchSync_cases this string sp h) as Hcases.
  cbv zeta in Hcases. fold str in Hcases.
  destruct Hcases as [[Hall Hres] | [(i & r & _ & _ & Hres) | (i & e & Hnf & _)]].
  - rewrite Hres.
    destruct (flat_map (fun j => pushed (iteration this str sp h j))
                (seq 0 (length (regexps this)))) as [|entry pending] eqn:Hp.
    + exists None. reflexivity.
    + destruct (closestPending_least_index (entry :: pending))
        as (pre & first & suf & Heq & _ & _ & Hclosest); [discriminate|].
      assert (Hin : first ∈ flat_map (fun j => pushed (iteration this str sp h j))
                              (seq 0 (length (regexps this)))).
      { rewrite Hp, Heq. apply elem_of_app. right. left. }
      apply elem_of_pending in Hin as [_ Hin]. apply pushed_elem in Hin as (Hidx & Hs & _).
      destruct (searchAt_indices _ _ _ _ _ _ _ Hd Hs) as [indices Hind].
      rewrite Hclosest. unfold toResult. rewrite Hind. eauto.
  - eauto.
  - congruence.
Qed.

Lemma findNextMatchSync_forgiving_total_witness :
  exists result,
    (findNextMatchSync (pickyScanner true) (inl "!b") 0 pickyHeap).2 = Normal result.
Proof.
  apply (findNextMatchSync_forgiving_total (pickyScanner true) (inl "!b") 0 pickyHeap).
  - reflexivity.
  - intros [|[|l]] R; simpl; [intros [= <-]; reflexivity | discriminate..].
Defined.

(** * Properties of the meta highlight transformer *)

(** ** Strings *)

Lemma append_nil_l s : "" +:+ s = s.
Proof. reflexivity. Qed.

Lemma append_cons c a b : String c a +:+ b = String c (a +:+ b).
Proof. reflexivity. Qed.

Lemma append_nil_r s : s +:+ "" = s.
Proof.
  induction s as [|c s IH]; [reflexivity|]. rewrite append_cons, IH. reflexivity.
Qed.

Lemma append_assoc (a b c : string) : (a +:+ b) +:+ c = a +:+ b +:+ c.
Proof.
  induction a as [|x a IH]; [reflexivity|]. rewrite !append_cons, IH. reflexivity.
Qed.

Lemma allChars_app P a b :
  allChars P (a +:+ b) = allChars P a && allChars P b.
Proof.
  induction a as [|x a IH]; [reflexivity|].
  rewrite append_cons. simpl. rewrite IH, andb_assoc. reflexivity.
Qed.

Lemma allChars_impl (P Q : ascii -> bool) s :
  (forall c, P c = true -> Q c = true) ->
  allChars P s = true -> allChars Q s = true.
Proof.
  intros HPQ. induction s as [|c s IH]; simpl; [reflexivity|].
  intros H. apply andb_true_iff in H as [Hc Hs].
  rewrite (HPQ c Hc), (IH Hs). reflexivity.
Qed.

Lemma isDigit_not c sep :
  isDigit c = true -> isDigit sep = false -> Ascii.eqb c sep = false.
Proof.
  intros Hc Hsep. destruct (Ascii.eqb c sep) eqn:Heq; [|reflexivity].
  apply Ascii.eqb_eq in Heq. congruence.
Qed.

(** ** [split] *)

Lemma split_app sep a b :
  split sep (a +:+ String sep b) = split sep a ++ split sep b.
Proof.
  unfold split. induction a as [|c a IH]; [rewrite append_nil_l | rewrite append_cons]; simpl.
  - rewrite Ascii.eqb_refl. destruct (splitPieces sep b); reflexivity.
  - destruct (splitPieces sep (a +:+ String sep b)) as [piece pieces].
    destruct (splitPieces sep a) as [piece' pieces'].
    destruct (splitPieces sep b) as [piece'' pieces''].
    simpl in IH. injection IH as -> ->.
    destruct (Ascii.eqb c sep); reflexivity.
Qed.

Lemma split_none sep s :
  allChars (fun c => negb (Ascii.eqb c sep)) s = true -> split sep s = [s].
Proof.
  unfold split. induction s as [|c s IH]; simpl; [reflexivity|].
  intros H. apply andb_true_iff in H as [Hc Hs].
  specialize (IH Hs). destruct (splitPieces sep s) as [piece pieces].
  injection IH as -> ->. apply negb_true_iff in Hc. rewrite Hc. reflexivity.
Qed.

Lemma split_none_inv sep s :
  split sep s = [s] -> allChars (fun c => negb (Ascii.eqb c sep)) s = true.
Proof.
  unfold split. induction s as [|c s IH]; simpl; [reflexivity|].
  destruct (splitPieces sep s) as [piece pieces].
  destruct (Ascii.eqb c sep); [discriminate|].
  intros [= -> ->]. simpl. apply IH. reflexivity.
Qed.

Lemma split_digits sep s :
  isDigit sep = false -> allChars isDigit s = true -> split sep s = [s].
Proof.
  intros Hsep Hs. apply split_none. revert Hs. apply allChars_impl.
  intros c Hc. rewrite (isDigit_not c sep Hc Hsep). reflexivity.
Qed.

(** ** Numerals *)

Lemma pretty_N_char_digit x :
  (x < 10)%N ->
  isDigit (pretty_N_char x) = true /\ digitValue (pretty_N_char x) = Z.of_N x.
Proof.
  intros Hx.
  assert (x = 0 \/ x = 1 \/ x = 2 \/ x = 3 \/ x = 4 \/ x = 5 \/ x = 6 \/ x = 7
          \/ x = 8 \/ x = 9)%N as Hcases by lia.
  repeat (destruct Hcases as [-> | Hcases]; [split; reflexivity|]).
  subst x. split; reflexivity.
Qed.

Lemma pretty_N_go_digits x :
  forall s,
    allChars isDigit s = true ->
    allChars isDigit (pretty_N_go x s) = true /\
    digitsValue 0 (pretty_N_go x s) = digitsValue (Z.of_N x) s.
Proof.
  induction (N.lt_wf_0 x) as [x _ IH]. intros s Hs.
  destruct (decide (x = 0%N)) as [->|Hne].
  - rewrite pretty_N_go_0. auto.
  - rewrite pretty_N_go_step by lia.
    destruct (pretty_N_char_digit (x `mod` 10)%N) as [Hd Hv].
    { apply N.mod_lt. discriminate. }
    destruct (IH (x `div` 10)%N) with (s := String (pretty_N_char (x `mod` 10)) s)
      as [Hall Hval].
    + apply N.div_lt; lia.
    + simpl. rewrite Hd, Hs. reflexivity.
    + split; [exact Hall|]. rewrite Hval. simpl. rewrite Hd, Hv.
      f_equal. rewrite N2Z.inj_div, N2Z.inj_mod. simpl Z.of_N.
      pose proof (Z.div_mod (Z.of_N x) 10). lia.
Qed.

Lemma pretty_N_numeral (x : N) :
  allChars isDigit (pretty x) = true /\
  pretty x <> EmptyString /\
  digitsValue 0 (pretty x) = Z.of_N x.
Proof.
  unfold pretty, pretty_N. destruct (decide (x = 0%N)) as [->|Hne].
  - split_and!; [reflexivity | discriminate | reflexivity].
  - destruct (pretty_N_go_digits x "" eq_refl) as [Hall Hval].
    split_and!; [exact Hall | | exact Hval].
    rewrite pretty_N_go_step by lia. intros Hnil.
    destruct (pretty_N_go_digits (x `div` 10)%N
                (String (pretty_N_char (x `mod` 10)) "")) as [_ Hv].
    { simpl. destruct (pretty_N_char_digit (x `mod` 10)%N) as [-> _];
        [apply N.mod_lt; discriminate | reflexivity]. }
    assert (Hlen : forall y s, (String.length s <= String.length (pretty_N_go y s))%nat).
    { intros y. induction (N.lt_wf_0 y) as [y _ IHy]. intros s.
      destruct (decide (y = 0%N)) as [->|Hy]; [rewrite pretty_N_go_0; lia|].
      rewrite pretty_N_go_step by lia.
      etransitivity; [|apply IHy; apply N.div_lt; lia]. simpl. lia. }
    specialize (Hlen (x `div` 10)%N (String (pretty_N_char (x `mod` 10)) "")).
    rewrite Hnil in Hlen. simpl in Hlen. lia.
Qed.

Lemma parseInt10_digits s :
  s <> EmptyString -> allChars isDigit s = true ->
  parseInt10 s = Finite (digitsValue 0 s).
Proof.
  destruct s as [|c s]; [congruence|]. intros _ H. simpl in H.
  apply andb_true_iff in H as [Hc _].
  unfold parseInt10.
  assert (Hws : isWhiteSpace c = false).
  { revert Hc. unfold isDigit, isWhiteSpace.
    generalize (nat_of_ascii c). intros n Hn.
    apply andb_true_iff in Hn as [H1 H2].
    apply Nat.leb_le in H1. apply Nat.leb_le in H2.
    destruct (Nat.leb_spec 9 n), (Nat.leb_spec n 13), (Nat.eqb_spec n 32);
      simpl; try reflexivity; lia. }
  simpl trimStart. rewrite Hws.
  assert (Hminus : Ascii.eqb c "-" = false) by (apply isDigit_not; [exact Hc | reflexivity]).
  assert (Hplus : Ascii.eqb c "+" = false) by (apply isDigit_not; [exact Hc | reflexivity]).
  apply Ascii.eqb_neq in Hminus, Hplus.
  assert (Hbody : match String c s with
                  | String "-" rest => (-1, rest)
                  | String "+" rest => (1, rest)
                  | _ => (1, String c s)
                  end = (1, String c s)).
  { destruct c as [[] [] [] [] [] [] [] []]; try reflexivity; congruence. }
  rewrite Hbody. rewrite Hc. f_equal. lia.
Qed.

Lemma parseInt10_pretty (x : N) : parseInt10 (pretty x) = Finite (Z.of_N x).
Proof.
  destruct (pretty_N_numeral x) as (Hall & Hne & Hval).
  rewrite parseInt10_digits by assumption. rewrite Hval. reflexivity.
Qed.

(** ** The brace group *)

Lemma classRun_spec r :
  r = (classRun r).1 +:+ (classRun r).2 /\
  allChars isClassChar (classRun r).1 = true /\
  match (classRun r).2 with
  | String c _ => isClassChar c = false
  | EmptyString => True
  end.
Proof.
  induction r as [|c r IH]; simpl; [auto|].
  destruct (isClassChar c) eqn:Hc; simpl.
  - destruct (classRun r) as [run after]. simpl in *.
    destruct IH as (Heq & Hall & Hafter).
    rewrite append_cons, <- Heq, Hc, Hall. auto.
  - rewrite Hc. auto.
Qed.

Lemma classRun_app group after :
  allChars isClassChar group = true ->
  match after with
  | String c _ => isClassChar c = false
  | EmptyString => True
  end ->
  classRun (group +:+ after) = (group, after).
Proof.
  intros Hall Hafter. induction group as [|c group IH].
  - rewrite append_nil_l. destruct after as [|c after]; simpl; [reflexivity|].
    rewrite Hafter. reflexivity.
  - simpl in Hall. apply andb_true_iff in Hall as [Hc Hall].
    rewrite append_cons. simpl. rewrite Hc, (IH Hall). reflexivity.
Qed.

Lemma matchBraces_cons c rest :
  matchBraces (String c rest)
  = if Ascii.eqb c "{" then
      match classRun rest with
      | (String x run, String "}" _) => Some (String x run)
      | _ => matchBraces rest
      end
    else matchBraces rest.
Proof. reflexivity. Qed.

(** At an opening brace that starts a group, the group is matched. *)
Lemma matchBraces_here group post :
  group <> EmptyString -> allChars isClassChar group = true ->
  matchBraces ("{" +:+ group +:+ "}" +:+ post) = Some group.
Proof.
  intros Hne Hall.
  change ("{" +:+ group +:+ "}" +:+ post) with (String "{" (group +:+ String "}" post)).
  rewrite matchBraces_cons. simpl Ascii.eqb. cbv iota.
  rewrite (classRun_app group (String "}" post) Hall eq_refl).
  destruct group; [congruence | reflexivity].
Qed.

Lemma matchBraces_some s group :
  matchBraces s = Some group ->
  exists pre post,
    s = pre +:+ "{" +:+ group +:+ "}" +:+ post /\
    group <> EmptyString /\
    allChars isClassChar group = true.
Proof.
  induction s as [|c s IH]; [discriminate|].
  rewrite matchBraces_cons.
  assert (Hnext : matchBraces s = Some group ->
                  exists pre post,
                    String c s = pre +:+ "{" +:+ group +:+ "}" +:+ post /\
                    group <> EmptyString /\ allChars isClassChar group = true).
  { intros H. destruct (IH H) as (pre & post & -> & Hne & Hall).
    exists (String c pre), post. rewrite append_cons. auto. }
  destruct (Ascii.eqb c "{") eqn:Hc; [|exact Hnext].
  apply Ascii.eqb_eq in Hc. subst c.
  destruct (classRun_spec s) as (Heq & Hall & _).
  destruct (classRun s) as [[|x run] [|y after]]; simpl in *; try exact Hnext.
  destruct (Ascii.eqb_spec y "}") as [->|Hy].
  - intros [= <-]. exists "", after. rewrite append_nil_l.
    split_and!; [|discriminate | exact Hall].
    change ("{" +:+ String x run +:+ "}" +:+ after)
      with (String "{" (String x run +:+ String "}" after)).
    rewrite <- Heq. reflexivity.
  - replace (match y with "}"%char => Some (String x run) | _ => matchBraces s end)
      with (matchBraces s); [exact Hnext|].
    destruct y as [[] [] [] [] [] [] [] []]; try reflexivity. congruence.
Qed.

Lemma matchBraces_exists pre group post :
  group <> EmptyString -> allChars isClassChar group = true ->
  exists found, matchBraces (pre +:+ "{" +:+ group +:+ "}" +:+ post) = Some found.
Proof.
  intros Hne Hall. induction pre as [|c pre IH].
  - rewrite append_nil_l. exists group. apply matchBraces_here; assumption.
  - rewrite append_cons, matchBraces_cons.
    destruct (Ascii.eqb c "{"); [|exact IH].
    destruct (classRun (pre +:+ "{" +:+ group +:+ "}" +:+ post)) as [[|x run] [|y after]];
      try exact IH.
    destruct (Ascii.eqb_spec y "}") as [->|Hy]; [eauto|].
    replace (match y with "}"%char => Some (String x run)
                     | _ => matchBraces (pre +:+ "{" +:+ group +:+ "}" +:+ post) end)
      with (matchBraces (pre +:+ "{" +:+ group +:+ "}" +:+ post)); [exact IH|].
    destruct y as [[] [] [] [] [] [] [] []]; try reflexivity. congruence.
Qed.

Lemma matchBraces_first pre group post :
  allChars (fun c => negb (Ascii.eqb c "{")) pre = true ->
  group <> EmptyString -> allChars isClassChar group = true ->
  matchBraces (pre +:+ "{" +:+ group +:+ "}" +:+ post) = Some group.
Proof.
  intros Hpre Hne Hall. induction pre as [|c pre IH].
  - rewrite append_nil_l. apply matchBraces_here; assumption.
  - simpl in Hpre. apply andb_true_iff in Hpre as [Hc Hpre].
    apply negb_true_iff in Hc.
    rewrite append_cons, matchBraces_cons, Hc. apply IH. exact Hpre.
Qed.

Lemma parseMetaHighlightString_group meta group :
  matchBraces meta = Some group ->
  parseMetaHighlightString meta
  = match flatMapC expandItem (split "," group) with
    | Throw e => Throw e
    | Normal lines => Normal (Some lines)
    end.
Proof.
  intros H. unfold parseMetaHighlightString.
  destruct meta; [discriminate|]. rewrite H. reflexivity.
Qed.

Lemma null_no_group meta :
  parseMetaHighlightString meta = Normal None -> ~ hasBraceGroup meta.
Proof.
  intros Hnull (pre & group & post & -> & Hne & Hall).
  destruct (matchBraces_exists pre group post Hne Hall) as [found Hfound].
  rewrite (parseMetaHighlightString_group _ _ Hfound) in Hnull.
  destruct (flatMapC expandItem (split "," found)); discriminate.
Qed.

Lemma no_group_null meta :
  ~ hasBraceGroup meta -> parseMetaHighlightString meta = Normal None.
Proof.
  intros Hno. unfold parseMetaHighlightString.
  destruct meta as [|c meta]; [reflexivity|].
  destruct (matchBraces (String c meta)) as [group|] eqn:Hm; [|reflexivity].
  exfalso. apply Hno.
  destruct (matchBraces_some _ _ Hm) as (pre & post & Heq & Hne & Hall).
  exists pre, group, post. auto.
Qed.

(** X11: [parseMetaHighlightString] returns [null] exactly when the text
    has no brace group, that is no opening brace followed by one or more
    digits, commas and dashes and then a closing brace; so for the empty
    text, for a text without braces and for [{}]. *)
Theorem parseMetaHighlightString_null_iff meta :
  parseMetaHighlightString meta = Normal None <-> ~ hasBraceGroup meta.
Proof.
  split; [apply null_no_group | apply no_group_null].
Qed.

(** X12: the first brace group decides: what stands before an opening
    brace that starts a group (when it has no opening brace itself) and
    what stands after the closing brace, further groups included, has no
    influence on the result. *)
Theorem parseMetaHighlightString_first_group pre group post :
  allChars (fun c => negb (Ascii.eqb c "{")) pre = true ->
  group <> EmptyString ->
  allChars isClassChar group = true ->
  parseMetaHighlightString (pre +:+ "{" +:+ group +:+ "}" +:+ post)
  = parseMetaHighlightString ("{" +:+ group +:+ "}").
Proof.
  intros Hpre Hne Hall.
  rewrite (parseMetaHighlightString_group _ group
             (matchBraces_first pre group post Hpre Hne Hall)).
  rewrite (parseMetaHighlightString_group ("{" +:+ group +:+ "}") group).
  - reflexivity.
  - rewrite <- (append_nil_r ("{" +:+ group +:+ "}")).
    rewrite !append_assoc. apply matchBraces_here; assumption.
Qed.

Lemma parseMetaHighlightString_first_group_witness :
  parseMetaHighlightString ("ts title=x " +:+ "{" +:+ "1,3-4" +:+ "}" +:+ " {9} more")
  = parseMetaHighlightString ("{" +:+ "1,3-4" +:+ "}").
Proof.
  apply (parseMetaHighlightString_first_group "ts title=x " "1,3-4" " {9} more").
  - reflexivity.
  - discriminate.
  - reflexivity.
Defined.

(** ** The items of a group *)

Lemma flatMapC_app {A B} (f : A -> Completion (list B)) xs ys :
  flatMapC f (xs ++ ys)
  = match flatMapC f xs with
    | Throw e => Throw e
    | Normal a =>
        match flatMapC f ys with
        | Throw e => Throw e
        | Normal b => Normal (a ++ b)
        end
    end.
Proof.
  induction xs as [|x xs IH]; simpl.
  - destruct (flatMapC f ys); reflexivity.
  - destruct (f x) as [zs|e]; [|reflexivity]. rewrite IH.
    destruct (flatMapC f xs) as [a|e]; [|reflexivity].
    destruct (flatMapC f ys) as [b|e]; [|reflexivity].
    rewrite app_assoc. reflexivity.
Qed.

Lemma braces_group group :
  group <> EmptyString -> allChars isClassChar group = true ->
  parseMetaHighlightString ("{" +:+ group +:+ "}")
  = match flatMapC expandItem (split "," group) with
    | Throw e => Throw e
    | Normal lines => Normal (Some lines)
    end.
Proof.
  intros Hne Hall. apply parseMetaHighlightString_group.
  rewrite <- (append_nil_r ("{" +:+ group +:+ "}")).
  rewrite !append_assoc. apply matchBraces_here; assumption.
Qed.

(** X13: the items of a group are expanded one by one and the results
    concatenated: the lines of [{g1,g2}] are the lines of [{g1}] followed
    by the lines of [{g2}]. *)
Theorem parseMetaHighlightString_comma g1 g2 lines1 lines2 :
  g1 <> EmptyString -> allChars isClassChar g1 = true ->
  g2 <> EmptyString -> allChars isClassChar g2 = true ->
  parseMetaHighlightString ("{" +:+ g1 +:+ "}") = Normal (Some lines1) ->
  parseMetaHighlightString ("{" +:+ g2 +:+ "}") = Normal (Some lines2) ->
  parseMetaHighlightString ("{" +:+ g1 +:+ "," +:+ g2 +:+ "}")
  = Normal (Some (lines1 ++ lines2)).
Proof.
  intros Hne1 Hall1 Hne2 Hall2.
  rewrite (braces_group g1 Hne1 Hall1), (braces_group g2 Hne2 Hall2).
  intros H1 H2.
  assert (Hne : g1 +:+ "," +:+ g2 <> EmptyString).
  { destruct g1; [congruence | discriminate]. }
  assert (Hall : allChars isClassChar (g1 +:+ "," +:+ g2) = true).
  { rewrite !allChars_app, Hall1, Hall2. reflexivity. }
  replace ("{" +:+ g1 +:+ "," +:+ g2 +:+ "}")
    with ("{" +:+ (g1 +:+ "," +:+ g2) +:+ "}") by (rewrite !append_assoc; reflexivity).
  rewrite (braces_group _ Hne Hall).
  change (g1 +:+ "," +:+ g2) with (g1 +:+ String "," g2).
  rewrite split_app, flatMapC_app.
  destruct (flatMapC expandItem (split "," g1)) as [a|e]; [|discriminate].
  destruct (flatMapC expandItem (split "," g2)) as [b|e]; [|discriminate].
  congruence.
Qed.

Lemma parseMetaHighlightString_comma_witness :
  parseMetaHighlightString ("{" +:+ "2-3" +:+ "," +:+ "7,," +:+ "}")
  = Normal (Some ([Finite 2; Finite 3] ++ [Finite 7; NaN; NaN])).
Proof.
  apply (parseMetaHighlightString_comma "2-3" "7,,"); try discriminate; reflexivity.
Defined.

Lemma expandItem_numeral (x : N) :
  expandItem (pretty x) = Normal [Finite (Z.of_N x)].
Proof.
  destruct (pretty_N_numeral x) as (Hall & _ & _).
  unfold expandItem. rewrite (split_digits "-" _ eq_refl Hall). simpl.
  rewrite parseInt10_pretty. reflexivity.
Qed.

Lemma numerals_cons x y ns :
  numerals (x :: y :: ns) = pretty x +:+ String "," (numerals (y :: ns)).
Proof. reflexivity. Qed.

Lemma numerals_spec ns :
  ns <> [] ->
  numerals ns <> EmptyString /\
  allChars isClassChar (numerals ns) = true /\
  split "," (numerals ns) = map pretty ns.
Proof.
  assert (Hone : forall x : N,
             pretty x <> EmptyString /\
             allChars isClassChar (pretty x) = true /\
             split "," (pretty x) = [pretty x]).
  { intros x. destruct (pretty_N_numeral x) as (Hall & Hne & _).
    split_and!; [exact Hne | | apply split_digits; [reflexivity | exact Hall]].
    revert Hall. apply allChars_impl. intros c Hc. unfold isClassChar. rewrite Hc.
    reflexivity. }
  induction ns as [|x [|y ns] IH]; intros Hns; [congruence | |].
  - apply (Hone x).
  - destruct (Hone x) as (Hne & Hall & Hsplit).
    destruct IH as (Hne' & Hall' & Hsplit'); [discriminate|].
    rewrite numerals_cons. split_and!.
    + destruct (pretty x); [congruence | discriminate].
    + rewrite allChars_app, Hall. simpl. exact Hall'.
    + rewrite split_app, Hsplit, Hsplit'. reflexivity.
Qed.

(** X14: a group of numerals separated by commas gives their numbers, in
    the order written, duplicates included (numbers up to [2^53 - 1],
    which JavaScript holds exactly). *)
Theorem parseMetaHighlightString_numbers (ns : list N) :
  ns <> [] ->
  Forall (fun n => Z.of_N n <= 2 ^ 53 - 1) ns ->
  parseMetaHighlightString ("{" +:+ numerals ns +:+ "}")
  = Normal (Some (map (fun n => Finite (Z.of_N n)) ns)).
Proof.
  intros Hns _.
  destruct (numerals_spec ns Hns) as (Hne & Hall & Hsplit).
  rewrite (braces_group _ Hne Hall), Hsplit.
  assert (Hflat : flatMapC expandItem (map pretty ns)
                  = Normal (map (fun n => Finite (Z.of_N n)) ns)).
  { clear. induction ns as [|x ns IH]; [reflexivity|].
    simpl. rewrite expandItem_numeral, IH. reflexivity. }
  rewrite Hflat. reflexivity.
Qed.

Lemma parseMetaHighlightString_numbers_witness :
  parseMetaHighlightString ("{" +:+ numerals [12; 7; 12]%N +:+ "}")
  = Normal (Some (map (fun n => Finite (Z.of_N n)) [12; 7; 12]%N)).
Proof.
  apply parseMetaHighlightString_numbers.
  - discriminate.
  - repeat constructor; vm_compute; discriminate.
Defined.

(** ** Ranges *)

Lemma numAdd_finite x y : numAdd (Finite x) (Finite y) = Finite (x + y).
Proof. reflexivity. Qed.

Lemma Array_from_length_finite (len lo : Z) :
  len <= 2 ^ 32 - 1 ->
  Array_from_length (Finite len) (fun i => numAdd (Finite i) (Finite lo))
  = Normal (Finite <$> seqZ lo len).
Proof.
  intros Hlen. unfold Array_from_length, toLengthNumber, ToLength.
  destruct (2 ^ 32 - 1 <? Z.min (Z.max len 0) (2 ^ 53 - 1)) eqn:Hbig.
  - apply Z.ltb_lt in Hbig. lia.
  - f_equal. unfold seqZ. rewrite <- list_fmap_compose.
    replace (Z.to_nat (Z.min (Z.max len 0) (2 ^ 53 - 1))) with (Z.to_nat len) by lia.
    apply map_ext. intros i. simpl. reflexivity.
Qed.

Lemma split_dash_pair a b :
  allChars isDigit a = true -> allChars isDigit b = true ->
  split "-" (a +:+ "-" +:+ b) = [a; b].
Proof.
  intros Ha Hb. change (a +:+ "-" +:+ b) with (a +:+ String "-" b).
  rewrite split_app, (split_digits "-" a eq_refl Ha), (split_digits "-" b eq_refl Hb).
  reflexivity.
Qed.

Lemma range_group (a b : N) :
  pretty a +:+ "-" +:+ pretty b <> EmptyString /\
  allChars isClassChar (pretty a +:+ "-" +:+ pretty b) = true /\
  split "," (pretty a +:+ "-" +:+ pretty b) = [pretty a +:+ "-" +:+ pretty b] /\
  split "-" (pretty a +:+ "-" +:+ pretty b) = [pretty a; pretty b].
Proof.
  destruct (pretty_N_numeral a) as (Ha & Hna & _).
  destruct (pretty_N_numeral b) as (Hb & _ & _).
  assert (Hclass : forall s, allChars isDigit s = true -> allChars isClassChar s = true).
  { intros s. apply allChars_impl. intros c Hc. unfold isClassChar. rewrite Hc.
    reflexivity. }
  assert (Hcomma : forall s, allChars isDigit s = true ->
                             allChars (fun c => negb (Ascii.eqb c ",")) s = true).
  { intros s. apply allChars_impl. intros c Hc.
    rewrite (isDigit_not c "," Hc eq_refl). reflexivity. }
  split_and!.
  - destruct (pretty a); [congruence | discriminate].
  - rewrite !allChars_app, (Hclass _ Ha), (Hclass _ Hb). reflexivity.
  - apply split_none. rewrite !allChars_app, (Hcomma _ Ha), (Hcomma _ Hb). reflexivity.
  - apply split_dash_pair; assumption.
Qed.

Lemma range_lines (a b : N) :
  Z.of_N b - Z.of_N a + 1 <= 2 ^ 32 - 1 ->
  parseMetaHighlightString ("{" +:+ pretty a +:+ "-" +:+ pretty b +:+ "}")
  = Normal (Some (Finite <$> seqZ (Z.of_N a) (Z.of_N b - Z.of_N a + 1))).
Proof.
  intros Hlen.
  destruct (range_group a b) as (Hne & Hall & Hcomma & Hdash).
  replace ("{" +:+ pretty a +:+ "-" +:+ pretty b +:+ "}")
    with ("{" +:+ (pretty a +:+ "-" +:+ pretty b) +:+ "}")
    by (rewrite !append_assoc; reflexivity).
  rewrite (braces_group _ Hne Hall), Hcomma. simpl flatMapC.
  unfold expandItem. rewrite Hdash. simpl map.
  rewrite !parseInt10_pretty. simpl numSub. rewrite numAdd_finite.
  rewrite (Array_from_length_finite _ _ Hlen). rewrite app_nil_r. reflexivity.
Qed.

(** X15: a range [{a-b}] with [b] up to [2^53 - 1] and of at most
    [2^32 - 1] lines gives the numbers from [a] to [b], both included and
    in ascending order; such a range written backwards ([b < a]) gives no
    line and no error. *)
Theorem parseMetaHighlightString_range (a b : N) :
  Z.of_N b <= 2 ^ 53 - 1 ->
  Z.of_N b - Z.of_N a + 1 <= 2 ^ 32 - 1 ->
  parseMetaHighlightString ("{" +:+ pretty a +:+ "-" +:+ pretty b +:+ "}")
  = Normal (Some (Finite <$> seqZ (Z.of_N a) (Z.of_N b - Z.of_N a + 1))).
Proof.
  intros _ Hlen. exact (range_lines a b Hlen).
Qed.

Lemma parseMetaHighlightString_range_witness :
  parseMetaHighlightString ("{" +:+ pretty 3%N +:+ "-" +:+ pretty 5%N +:+ "}")
  = Normal (Some (Finite <$> seqZ (Z.of_N 3) (Z.of_N 5 - Z.of_N 3 + 1))).
Proof.
  apply parseMetaHighlightString_range; vm_compute; discriminate.
Defined.

(** X16: a range [{a-b}] with [b] up to [2^53 - 1] and of more than
    [2^32 - 1] lines makes [parseMetaHighlightString] throw the range
    error of [Array.from] (invalid array length) instead of returning. *)
Theorem parseMetaHighlightString_range_too_long (a b : N) :
  Z.of_N b <= 2 ^ 53 - 1 ->
  2 ^ 32 - 1 < Z.of_N b - Z.of_N a + 1 ->
  parseMetaHighlightString ("{" +:+ pretty a +:+ "-" +:+ pretty b +:+ "}")
  = Throw invalidArrayLength.
Proof.
  intros Hb Hlen.
  destruct (range_group a b) as (Hne & Hall & Hcomma & Hdash).
  replace ("{" +:+ pretty a +:+ "-" +:+ pretty b +:+ "}")
    with ("{" +:+ (pretty a +:+ "-" +:+ pretty b) +:+ "}")
    by (rewrite !append_assoc; reflexivity).
  rewrite (braces_group _ Hne Hall), Hcomma. simpl flatMapC.
  unfold expandItem. rewrite Hdash. simpl map.
  rewrite !parseInt10_pretty. simpl numSub. rewrite numAdd_finite.
  unfold Array_from_length, toLengthNumber, ToLength.
  destruct (2 ^ 32 - 1 <? Z.min (Z.max (Z.of_N b - Z.of_N a + 1) 0) (2 ^ 53 - 1)) eqn:Hbig;
    [reflexivity|].
  apply Z.ltb_ge in Hbig. lia.
Qed.

Lemma parseMetaHighlightString_range_too_long_witness :
  parseMetaHighlightString ("{" +:+ pretty 1%N +:+ "-" +:+ pretty 4294967296%N +:+ "}")
  = Throw invalidArrayLength.
Proof.
  apply parseMetaHighlightString_range_too_long; vm_compute; [discriminate | reflexivity].
Defined.

(** X17: a range with one side missing, [{a-}] or [{-a}], gives no line
    and no error. *)
Theorem parseMetaHighlightString_open_range (a : N) :
  parseMetaHighlightString ("{" +:+ pretty a +:+ "-" +:+ "}") = Normal (Some []) /\
  parseMetaHighlightString ("{" +:+ "-" +:+ pretty a +:+ "}") = Normal (Some []).
Proof.
  destruct (pretty_N_numeral a) as (Ha & Hna & _).
  assert (Hclass : allChars isClassChar (pretty a) = true).
  { revert Ha. apply allChars_impl. intros c Hc. unfold isClassChar. rewrite Hc.
    reflexivity. }
  assert (Hcomma : allChars (fun c => negb (Ascii.eqb c ",")) (pretty a) = true).
  { revert Ha. apply allChars_impl. intros c Hc.
    rewrite (isDigit_not c "," Hc eq_refl). reflexivity. }
  split.
  - replace ("{" +:+ pretty a +:+ "-" +:+ "}")
      with ("{" +:+ (pretty a +:+ "-" +:+ "") +:+ "}")
      by (rewrite !append_assoc; reflexivity).
    rewrite braces_group.
    + rewrite split_none by (rewrite !allChars_app, Hcomma; reflexivity).
      simpl flatMapC. unfold expandItem.
      rewrite (split_dash_pair (pretty a) "" Ha eq_refl). simpl map.
      rewrite parseInt10_pretty. reflexivity.
    + destruct (pretty a); [congruence | discriminate].
    + rewrite !allChars_app, Hclass. reflexivity.
  - change ("{" +:+ "-" +:+ pretty a +:+ "}")
      with ("{" +:+ ("-" +:+ pretty a) +:+ "}").
    rewrite braces_group.
    + rewrite split_none by (rewrite !allChars_app, Hcomma; reflexivity).
      simpl flatMapC. unfold expandItem.
      change ("-" +:+ pretty a) with ("" +:+ "-" +:+ pretty a).
      rewrite (split_dash_pair "" (pretty a) eq_refl Ha). simpl map.
      rewrite parseInt10_pretty. reflexivity.
    + discriminate.
    + rewrite !allChars_app, Hclass. reflexivity.
Qed.

(** X18: in an item with more than one dash only the first two numbers
    count: [{a-b-rest}], for digits and dashes [rest], is read as
    [{a-b}]. *)
Theorem parseMetaHighlightString_third_bound (a b : N) (rest : string) :
  allChars (fun c => isDigit c || Ascii.eqb c "-") rest = true ->
  parseMetaHighlightString
    ("{" +:+ pretty a +:+ "-" +:+ pretty b +:+ "-" +:+ rest +:+ "}")
  = parseMetaHighlightString ("{" +:+ pretty a +:+ "-" +:+ pretty b +:+ "}").
Proof.
  intros Hrest.
  destruct (range_group a b) as (Hne & Hall & Hcomma & Hdash).
  assert (Hrest_class : allChars isClassChar rest = true).
  { revert Hrest. apply allChars_impl. intros c Hc. unfold isClassChar.
    apply orb_true_iff in Hc as [-> | ->]; [reflexivity | apply orb_true_r]. }
  assert (Hrest_comma : allChars (fun c => negb (Ascii.eqb c ",")) rest = true).
  { revert Hrest. apply allChars_impl. intros c Hc.
    apply orb_true_iff in Hc as [Hc | Hc].
    - rewrite (isDigit_not c "," Hc eq_refl). reflexivity.
    - apply Ascii.eqb_eq in Hc. subst c. reflexivity. }
  assert (Hpair_comma : allChars (fun c => negb (Ascii.eqb c ","))
                          (pretty a +:+ "-" +:+ pretty b) = true).
  { apply (split_none_inv "," _ Hcomma). }
  replace ("{" +:+ pretty a +:+ "-" +:+ pretty b +:+ "-" +:+ rest +:+ "}")
    with ("{" +:+ ((pretty a +:+ "-" +:+ pretty b) +:+ "-" +:+ rest) +:+ "}")
    by (rewrite !append_assoc; reflexivity).
  replace ("{" +:+ pretty a +:+ "-" +:+ pretty b +:+ "}")
    with ("{" +:+ (pretty a +:+ "-" +:+ pretty b) +:+ "}")
    by (rewrite !append_assoc; reflexivity).
  rewrite (braces_group _ Hne Hall), Hcomma.
  rewrite braces_group.
  - rewrite split_none by (rewrite allChars_app, Hpair_comma; exact Hrest_comma).
    simpl flatMapC. unfold expandItem.
    change ((pretty a +:+ "-" +:+ pretty b) +:+ "-" +:+ rest)
      with ((pretty a +:+ "-" +:+ pretty b) +:+ String "-" rest).
    rewrite split_app, Hdash. simpl map. reflexivity.
  - destruct (pretty a +:+ "-" +:+ pretty b); [congruence | discriminate].
  - rewrite allChars_app, Hall. simpl. exact Hrest_class.
Qed.

Lemma parseMetaHighlightString_third_bound_witness :
  parseMetaHighlightString
    ("{" +:+ pretty 1%N +:+ "-" +:+ pretty 3%N +:+ "-" +:+ "9-" +:+ "}")
  = parseMetaHighlightString ("{" +:+ pretty 1%N +:+ "-" +:+ pretty 3%N +:+ "}").
Proof.
  apply parseMetaHighlightString_third_bound. reflexivity.
Defined.

(** ** The [line] hook *)

Lemma includes_range lo len idx :
  includes (Finite <$> seqZ lo len) (Finite idx)
  = bool_decide (lo <= idx < lo + len).
Proof.
  unfold includes.
  destruct (existsb (sameValueZero (Finite idx)) (Finite <$> seqZ lo len)) eqn:Hex.
  - symmetry. apply bool_decide_eq_true.
    apply existsb_exists in Hex as (x & Hin & Hx).
    apply list_elem_of_In, list_elem_of_fmap in Hin as (z & -> & Hz).
    simpl in Hx. apply Z.eqb_eq in Hx. subst z.
    apply elem_of_seqZ in Hz. lia.
  - symmetry. apply bool_decide_eq_false. intros Hrange.
    assert (Hin : existsb (sameValueZero (Finite idx)) (Finite <$> seqZ lo len) = true);
      [|congruence].
    apply existsb_exists. exists (Finite idx). split.
    + apply list_elem_of_In, list_elem_of_fmap. exists idx. split; [reflexivity|].
      apply elem_of_seqZ. lia.
    + simpl. apply Z.eqb_refl.
Qed.

(** X19: with the meta text [{a-b}] (a range with [b] up to [2^53 - 1]
    and of at most [2^32 - 1] lines), nothing stored yet and an integer
    line number, the [line] hook stores the lines of
    the range and adds the class to the element exactly when the line
    index is from [a] to [b]; the line index is the line number, or the
    line number minus one when [zeroIndexed] is set; the class is
    [className], by default [highlighted]. Other elements are returned as
    they are. *)
Theorem lineHook_range (Element : Type) (addClassToHast : Element -> string -> Element)
    (options : TransformerMetaHighlightOptions) (a b : N) (node : Element) (line : Z) :
  Z.of_N b <= 2 ^ 53 - 1 ->
  Z.of_N b - Z.of_N a + 1 <= 2 ^ 32 - 1 ->
  let raw := "{" +:+ pretty a +:+ "-" +:+ pretty b +:+ "}" in
  let lineIndex := if default false (opt_zeroIndexed options) then line - 1 else line in
  lineHook Element addClassToHast options
    {| meta_raw := Some raw; highlighted := None |} node (Finite line)
  = Normal ({| meta_raw := Some raw;
               highlighted := Some (Finite <$> seqZ (Z.of_N a) (Z.of_N b - Z.of_N a + 1)) |},
            (if bool_decide (Z.of_N a <= lineIndex <= Z.of_N b)
             then addClassToHast node (default "highlighted" (opt_className options))
             else node),
            true).
Proof.
  intros Hb Hlen raw lineIndex.
  pose proof (range_lines a b Hlen) as Hparse. fold raw in Hparse.
  unfold lineHook. cbn [meta_raw highlighted].
  assert (Hraw : exists c rest, raw = String c rest).
  { exists "{"%char, (pretty a +:+ "-" +:+ pretty b +:+ "}"). reflexivity. }
  destruct Hraw as (c & rest & Hraw). rewrite Hraw in *. rewrite Hparse.
  cbn [default].
  assert (Hidx : (if default false (opt_zeroIndexed options)
                  then numSub (Finite line) (Finite 1) else Finite line)
                 = Finite lineIndex).
  { subst lineIndex. destruct (default false (opt_zeroIndexed options)); reflexivity. }
  cbn [id]. rewrite Hidx, includes_range.
  assert (Hdec : bool_decide (Z.of_N a <= lineIndex
                              < Z.of_N a + (Z.of_N b - Z.of_N a + 1))
                 = bool_decide (Z.of_N a <= lineIndex <= Z.of_N b)).
  { apply bool_decide_ext. lia. }
  rewrite Hdec. destruct (bool_decide (Z.of_N a <= lineIndex <= Z.of_N b)); reflexivity.
Qed.

Lemma lineHook_range_witness :
  lineHook (list string) exampleAddClass
    {| opt_className := Some "hl"; opt_zeroIndexed := Some true |}
    {| meta_raw := Some ("{" +:+ pretty 3%N +:+ "-" +:+ pretty 5%N +:+ "}");
       highlighted := None |} ["line"] (Finite 6)
  = Normal ({| meta_raw := Some ("{" +:+ pretty 3%N +:+ "-" +:+ pretty 5%N +:+ "}");
               highlighted := Some (Finite <$> seqZ (Z.of_N 3) (Z.of_N 5 - Z.of_N 3 + 1)) |},
            (if bool_decide (Z.of_N 3 <= 6 - 1 <= Z.of_N 5)
             then exampleAddClass ["line"] "hl"
             else ["line"]),
            true).
Proof.
  apply (lineHook_range (list string) exampleAddClass
           {| opt_className := Some "hl"; opt_zeroIndexed := Some true |} 3%N 5%N);
    vm_compute; discriminate.
Defined.

(** X20: with a meta text that has no brace group and nothing stored,
    the [line] hook never changes the element and stores nothing, on any
    line; it returns the element, or nothing when the text is empty. *)
Theorem lineHook_no_group (Element : Type) (addClassToHast : Element -> string -> Element)
    (options : TransformerMetaHighlightOptions) (raw : string) (node : Element)
    (line : Number) :
  ~ hasBraceGroup raw ->
  lineHook Element addClassToHast options
    {| meta_raw := Some raw; highlighted := None |} node line
  = Normal ({| meta_raw := Some raw; highlighted := None |}, node,
            negb (String.eqb raw "")).
Proof.
  intros Hno. apply no_group_null in Hno.
  unfold lineHook. cbn [meta_raw highlighted].
  destruct raw as [|c rest]; [reflexivity|].
  rewrite Hno. reflexivity.
Qed.

Lemma lineHook_no_group_witness :
  lineHook (list string) exampleAddClass
    {| opt_className := None; opt_zeroIndexed := None |}
    {| meta_raw := Some "title=abc"; highlighted := None |} ["line"] (Finite 1)
  = Normal ({| meta_raw := Some "title=abc"; highlighted := None |}, ["line"],
            negb (String.eqb "title=abc" "")).
Proof.
  apply lineHook_no_group.
  apply null_no_group. reflexivity.
Defined.

(** ** The preconditions on the flags are needed *)

(** Without the [g] flag [exec] searches from the start of the buffer,
    and the scan returns a match before [startPosition]. *)
Example scan_without_global :
  (findNextMatchSync plainScanner (inl "ba") 1 [withoutGlobal]).2
  = Normal (Some {| index := 0;
                    captureIndices := [{| c_start := 0; c_length := 1; c_end := 1 |}] |}).
Proof. vm_compute. reflexivity. Qed.

(** Without the [d] flag a pending match makes the scan throw, in
    forgiving mode too: the pending result is built outside of [try]. *)
Example scan_without_indices :
  (findNextMatchSync (pickyScanner true) (inl "ab") 0 [withoutIndices]).2
  = Throw indicesTypeError.
Proof. vm_compute. reflexivity. Qed.
